(** * draino: node filters and the draining event handler

    A shallow embedding of [internal/kubernetes/nodefilters.go] and
    [internal/kubernetes/eventhandler.go], with the parts of the Go standard
    library ([time], [strings]) and of the Kubernetes API types that the two
    files rely on, followed by the properties proved about them. *)

From Stdlib Require Import ZArith NArith String Ascii List Lia Bool.
From stdpp Require Import base option list gmap fin_maps strings.

#[local] Open Scope string_scope.
#[local] Open Scope Z_scope.

(** ** Outcomes of Go code that may panic *)

(** A Go function either returns normally or panics at run time (here: an
    index out of range). *)
Inductive result (A : Type) : Type :=
  | Ok (a : A)
  | Panic (msg : string).
Arguments Ok {A} a.
Arguments Panic {A} msg.

#[global] Instance result_ret : MRet result := fun A a => Ok a.

#[global] Instance result_bind : MBind result := fun A B k r =>
  match r with
  | Ok a => k a
  | Panic msg => Panic msg
  end.

(** [s[i]] on a slice: a run-time panic when [i] is out of range. *)
Definition index {A : Type} (s : list A) (i : nat) : result A :=
  match nth_error s i with
  | Some a => Ok a
  | None => Panic "index out of range"
  end.

(** ** Package [time] of the Go standard library *)

Module GoTime.

(** [time.Duration] is an [int64] count of nanoseconds. *)
Abbreviation Duration := Z (only parsing).

Definition minDuration : Z := - 2 ^ 63.
Definition maxDuration : Z := 2 ^ 63 - 1.

(** The values a [Duration] variable can hold. *)
Definition isDuration (d : Z) : Prop := minDuration <= d <= maxDuration.

(** Conversion to [int64]: arithmetic on [int64] wraps around silently. *)
Definition int64 (z : Z) : Z := (z + 2 ^ 63) mod 2 ^ 64 - 2 ^ 63.

(** [a + b] on two [Duration]s. *)
Definition addDuration (a b : Z) : Z := int64 (a + b).

Definition Nanosecond : Z := 1.
Definition Microsecond : Z := 1000 * Nanosecond.
Definition Millisecond : Z := 1000 * Microsecond.
Definition Second : Z := 1000 * Millisecond.
Definition Minute : Z := 60 * Second.
Definition Hour : Z := 60 * Minute.

(** [time.Time]: an instant, as a count of nanoseconds on one time line.
    The representable instants span hundreds of billions of years, so
    [Add] of a [Duration] is exact; the wall clock and the monotonic clock
    of [time.Now] are taken to agree. *)
Abbreviation Time := Z (only parsing).

(** [t.Sub(u)]: the difference [t - u], saturated at the largest and
    smallest [Duration]. *)
Definition Sub (t u : Z) : Z :=
  if t - u <? minDuration then minDuration
  else if maxDuration <? t - u then maxDuration
  else t - u.

(** [t.Add(d)]. *)
Definition Add (t d : Z) : Z := t + d.

(** [t.Before(u)]: strictly earlier. *)
Definition Before (t u : Z) : bool := t <? u.

(** *** [time.ParseDuration] *)

Definition uint64 (n : N) : N := (n mod 2 ^ 64)%N.

Definition isDigit (c : ascii) : bool :=
  ((48 <=? N_of_ascii c) && (N_of_ascii c <=? 57))%N.

Definition digitVal (c : ascii) : N := (N_of_ascii c - 48)%N.

Definition isDot (c : ascii) : bool := (N_of_ascii c =? 46)%N.

(** [leadingInt]: the leading [[0-9]*] of [s] as a number and the rest of
    [s]; [None] when the number overflows. *)
Fixpoint leadingIntFrom (x : N) (s : string) : option (N * string) :=
  match s with
  | String c rem =>
      if isDigit c then
        if (2 ^ 63 / 10 <? x)%N then None
        else
          let x' := (x * 10 + digitVal c)%N in
          if (2 ^ 63 <? x')%N then None else leadingIntFrom x' rem
      else Some (x, s)
  | EmptyString => Some (x, s)
  end.

Definition leadingInt (s : string) : option (N * string) :=
  leadingIntFrom 0%N s.

(** [leadingFraction]: the leading [[0-9]*] of [s] as a numerator [x] over
    [scale = 10 ^ k]; digits past an overflow are consumed and ignored. *)
Fixpoint leadingFractionFrom (x : N) (k : nat) (overflow : bool) (s : string)
  : N * nat * string :=
  match s with
  | String c rem =>
      if isDigit c then
        if overflow then leadingFractionFrom x k true rem
        else if ((2 ^ 63 - 1) / 10 <? x)%N then leadingFractionFrom x k true rem
        else
          let y := (x * 10 + digitVal c)%N in
          if (2 ^ 63 <? y)%N then leadingFractionFrom x k true rem
          else leadingFractionFrom y (S k) false rem
      else (x, k, s)
  | EmptyString => (x, k, s)
  end.

Definition leadingFraction (s : string) : N * nat * string :=
  leadingFractionFrom 0%N 0%nat false s.

(** The unit of a term: the longest prefix without a digit or a dot, and
    the rest. *)
Fixpoint splitUnit (s : string) : string * string :=
  match s with
  | String c rem =>
      if isDot c || isDigit c then (EmptyString, s)
      else let '(u, r) := splitUnit rem in (String c u, r)
  | EmptyString => (EmptyString, EmptyString)
  end.

(** U+00B5 and U+03BC followed by [s], in UTF-8. *)
Definition microSign : string :=
  String (ascii_of_N 194) (String (ascii_of_N 181) "s").
Definition greekMu : string :=
  String (ascii_of_N 206) (String (ascii_of_N 188) "s").

Definition unitMap (u : string) : option N :=
  if String.eqb u "ns" then Some 1%N
  else if String.eqb u "us" then Some 1000%N
  else if String.eqb u microSign then Some 1000%N
  else if String.eqb u greekMu then Some 1000%N
  else if String.eqb u "ms" then Some 1000000%N
  else if String.eqb u "s" then Some 1000000000%N
  else if String.eqb u "m" then Some 60000000000%N
  else if String.eqb u "h" then Some 3600000000000%N
  else None.

Section ParseDuration.

(** The one floating-point step of the parser,
    [uint64(float64(f) * (float64(unit) / scale))] with
    [scale = 10 ^ k], is left abstract. *)
Variable fracNanos : N -> N -> nat -> N.

(** The loop [for s != ""] over the terms of a duration; every round
    consumes at least one byte, [fuel] bounds the number of rounds. *)
Fixpoint parseTerms (fuel : nat) (d : N) (s : string) : option N :=
  match s with
  | EmptyString => Some d
  | String c0 _ =>
      match fuel with
      | O => None
      | S fuel' =>
          if negb (isDot c0 || isDigit c0) then None
          else
            match leadingInt s with
            | None => None
            | Some (v, s1) =>
                let pre := negb (String.length s =? String.length s1)%nat in
                let '(f, k, post, s2) :=
                  match s1 with
                  | String c1 r =>
                      if isDot c1 then
                        let '(f, k, r') := leadingFraction r in
                        (f, k, negb (String.length r =? String.length r')%nat, r')
                      else (0%N, 0%nat, false, s1)
                  | EmptyString => (0%N, 0%nat, false, s1)
                  end in
                if negb pre && negb post then None
                else
                  let '(u, s3) := splitUnit s2 in
                  match u with
                  | EmptyString => None
                  | _ =>
                      match unitMap u with
                      | None => None
                      | Some unit =>
                          if (2 ^ 63 / unit <? v)%N then None
                          else
                            let v1 := (v * unit)%N in
                            let v2 :=
                              if (0 <? f)%N then uint64 (v1 + fracNanos f unit k)
                              else v1 in
                            if (0 <? f)%N && (2 ^ 63 <? v2)%N then None
                            else
                              let d' := uint64 (d + v2) in
                              if (2 ^ 63 <? d')%N then None
                              else parseTerms fuel' d' s3
                      end
                  end
            end
      end
  end.

(** [time.ParseDuration(s)]; [None] stands for a non-nil error. *)
Definition ParseDuration (s : string) : option Z :=
  let '(neg, s) :=
    match s with
    | String c rem =>
        if (N_of_ascii c =? 45)%N then (true, rem)
        else if (N_of_ascii c =? 43)%N then (false, rem)
        else (false, s)
    | EmptyString => (false, s)
    end in
  if String.eqb s "0" then Some 0
  else if String.eqb s "" then None
  else
    match parseTerms (String.length s) 0%N s with
    | None => None
    | Some d =>
        if neg then Some (int64 (- Z.of_N d))
        else if (2 ^ 63 - 1 <? d)%N then None
        else Some (Z.of_N d)
    end.

End ParseDuration.

(** The fractional step computed exactly (rounded down). *)
Definition exactFraction (f unit : N) (k : nat) : N :=
  (f * unit / 10 ^ N.of_nat k)%N.

End GoTime.

(** ** Package [strings] of the Go standard library *)

Module GoStrings.

(** [s[:i]] and [s[i+1:]] for the first [i] with [s[i] = sep]. *)
Fixpoint cut (sep : ascii) (s : string) : option (string * string) :=
  match s with
  | EmptyString => None
  | String c rem =>
      if Ascii.eqb c sep then Some (EmptyString, rem)
      else
        match cut sep rem with
        | Some (before, after) => Some (String c before, after)
        | None => None
        end
  end.

(** [strings.SplitN(s, sep, 2)] for a one-byte separator: at most two
    substrings, split at the first separator. *)
Definition SplitN2 (s : string) (sep : ascii) : list string :=
  match cut sep s with
  | Some (before, after) => [before; after]
  | None => [s]
  end.

End GoStrings.

(** ** Kubernetes API objects *)

(** [core.NodeCondition], with the fields the filters read; condition types
    and statuses are strings. *)
Record NodeCondition : Type := {
  cond_Type : string;
  cond_Status : string;
  cond_LastTransitionTime : GoTime.Time
}.

(** [core.Node]: name, UID and labels of its metadata, [Spec.Unschedulable]
    and [Status.Conditions]. *)
Record Node : Type := {
  Name : string;
  UID : string;
  Labels : gmap string string;
  Unschedulable : bool;
  Conditions : list NodeCondition
}.

(** A value of type [interface{}] handed to a filter or to the handler: a
    [*core.Node], or something else. *)
Inductive object : Type :=
  | ONode (n : Node)
  | OOther.

(** The type assertion of [o] to a node pointer, with its [ok] flag. *)
Definition asNode (o : object) : option Node :=
  match o with
  | ONode n => Some n
  | OOther => None
  end.

(** [value, ok := m[k]]: the zero value and [false] for a missing key. *)
Definition mapIndex (m : gmap string string) (k : string) : string * bool :=
  match m !! k with
  | Some v => (v, true)
  | None => ("", false)
  end.

(** ** nodefilters.go *)

(** Modelled from the spec: the struct [SuppliedCondition] is declared outside
    the two source files; its fields (type, required status, minimum duration)
    are those of the spec's data model, in the order and under the names that
    [ParseConditions] and [NewNodeConditionFilter] use. *)
Record SuppliedCondition : Type := {
  Type_ : string;
  Status : string;
  MinimumDuration : GoTime.Duration
}.

(** The zero value of the struct. *)
Definition zeroSuppliedCondition : SuppliedCondition :=
  {| Type_ := ""; Status := ""; MinimumDuration := 0 |}.

(** The body of [for k, v := range labels], over the entries in the order the
    iteration happens to take. *)
Fixpoint labelLoop (entries : list (string * string)) (n : Node) : bool :=
  match entries with
  | [] => true
  | (k, v) :: rest =>
      let '(value, ok) := mapIndex (Labels n) k in
      if negb (String.eqb value v) || negb ok then false
      else labelLoop rest n
  end.

Definition NewNodeLabelFilter (labels : gmap string string) (o : object) : bool :=
  match asNode o with
  | None => false
  | Some n => labelLoop (map_to_list labels) n
  end.

Definition NodeSchedulableFilter (o : object) : bool :=
  match asNode o with
  | None => false
  | Some n => negb (Unschedulable n)
  end.

Section ConditionFilter.

(** The floating-point step of [time.ParseDuration]. *)
Variable fracNanos : N -> N -> nat -> N.

(** One round of the loop of [ParseConditions]: the spec to store at index
    [i], if the duration parses. *)
Definition parseCondition (c : string) : result (option SuppliedCondition) :=
  let ts := GoStrings.SplitN2 c "="%char in
  let ts := if negb (length ts =? 2)%nat then [c; "True,0s"] else ts in
  ts1 ← index ts 1;
  let sm := GoStrings.SplitN2 ts1 ","%char in
  sm1 ← index sm 1;
  match GoTime.ParseDuration fracNanos sm1 with
  | Some duration =>
      ts0 ← index ts 0;
      sm0 ← index sm 0;
      Ok (Some {| Type_ := ts0; Status := sm0; MinimumDuration := duration |})
  | None => Ok None
  end.

Fixpoint parseLoop (i : nat) (conditions : list string)
    (parsed : list SuppliedCondition) : result (list SuppliedCondition) :=
  match conditions with
  | [] => Ok parsed
  | c :: rest =>
      r ← parseCondition c;
      parseLoop (S i) rest
        match r with
        | Some sc => <[i := sc]> parsed
        | None => parsed
        end
  end.

Definition ParseConditions (conditions : list string)
  : result (list SuppliedCondition) :=
  parseLoop 0 conditions (replicate (length conditions) zeroSuppliedCondition).

(** The inner loop over [n.Status.Conditions]. The condition of line 58 is
    evaluated left to right and reads [time.Now()] only when type and status
    match; [clock k] is the [k]-th reading taken during the call and [reads]
    counts the readings taken so far. *)
Fixpoint conditionLoop (t : SuppliedCondition) (cs : list NodeCondition)
    (clock : nat -> GoTime.Time) (reads : nat) : bool * nat :=
  match cs with
  | [] => (false, reads)
  | c :: rest =>
      if String.eqb (cond_Type c) (Type_ t)
         && String.eqb (cond_Status c) (Status t)
      then
        if GoTime.Before
             (GoTime.Add (cond_LastTransitionTime c) (MinimumDuration t))
             (clock reads)
        then (true, S reads)
        else conditionLoop t rest clock (S reads)
      else conditionLoop t rest clock reads
  end.

(** The outer loop over the parsed specs. *)
Fixpoint suppliedLoop (pc : list SuppliedCondition) (n : Node)
    (clock : nat -> GoTime.Time) (reads : nat) : bool * nat :=
  match pc with
  | [] => (false, reads)
  | t :: rest =>
      let '(found, reads') := conditionLoop t (Conditions n) clock reads in
      if found then (true, reads')
      else suppliedLoop rest n clock reads'
  end.

(** The filter returned by [NewNodeConditionFilter(ct)], applied to [o]. *)
Definition NewNodeConditionFilter (ct : list string) (clock : nat -> GoTime.Time)
    (o : object) : result bool :=
  match asNode o with
  | None => Ok false
  | Some n =>
      if (length ct =? 0)%nat then Ok true
      else
        pc ← ParseConditions ct;
        Ok (suppliedLoop pc n clock 0).1
  end.

End ConditionFilter.

(** A spec and a condition agree on type and status. *)
Definition sameTypeStatus (t : SuppliedCondition) (c : NodeCondition) : Prop :=
  cond_Type c = Type_ t /\ cond_Status c = Status t.

(** The bytes of a string, and a byte that occurs in it. *)
Definition hasByte (b : ascii) (s : string) : Prop :=
  In b (list_ascii_of_string s).

(** An entry of the form [TYPE=REST] whose [REST] has no comma. *)
Definition missingComma (c : string) : Prop :=
  exists ty rest : string,
    c = ty ++ String "="%char rest
    /\ ~ hasByte "="%char ty /\ ~ hasByte ","%char rest.

(** What ends up at the index of an entry: the spec of the round, or the zero
    value the slice was made with. *)
Definition entryOf (r : option SuppliedCondition) : SuppliedCondition :=
  match r with
  | Some sc => sc
  | None => zeroSuppliedCondition
  end.

(** [NodeProcessed] is a [map[types.UID]bool]. *)
Abbreviation NodeProcessed := (gmap string bool) (only parsing).

Definition NewNodeProcessed : NodeProcessed := ∅.

(** [processed[uid]]: [false] for a missing key. *)
Definition processedIndex (processed : NodeProcessed) (uid : string) : bool :=
  default false (processed !! uid).

(** [processed.Filter(o)]: the result and the map after the call. *)
Definition Filter (processed : NodeProcessed) (o : object)
  : bool * NodeProcessed :=
  match asNode o with
  | None => (false, processed)
  | Some n =>
      if processedIndex processed (UID n) then (false, processed)
      else (true, <[UID n := true]> processed)
  end.

(** Successive calls of [Filter] on one map, results in call order. *)
Fixpoint filterCalls (processed : NodeProcessed) (os : list object)
  : list bool * NodeProcessed :=
  match os with
  | [] => ([], processed)
  | o :: rest =>
      let '(b, processed') := Filter processed o in
      let '(bs, final) := filterCalls processed' rest in
      (b :: bs, final)
  end.

(** The identifiers of the nodes among the objects of a sequence of calls. *)
Definition nodeUIDs (os : list object) : list string :=
  omap (fun o => UID <$> asNode o) os.

(** How many answers of a sequence of calls are true. *)
Fixpoint countTrue (bs : list bool) : nat :=
  match bs with
  | [] => 0%nat
  | b :: rest => ((if b then 1 else 0) + countTrue rest)%nat
  end.

(** Every key of the map is marked true. *)
Definition allTrue (processed : NodeProcessed) : Prop :=
  forall uid v, processed !! uid = Some v -> v = true.

(** ** eventhandler.go *)

(** [DefaultDrainBuffer] is the default minimum time between node drains. *)
Definition DefaultDrainBuffer : GoTime.Duration := 10 * GoTime.Minute.

Definition eventReasonCordonStarting : string := "CordonStarting".
Definition eventReasonCordonSucceeded : string := "CordonSucceeded".
Definition eventReasonCordonFailed : string := "CordonFailed".

Definition eventReasonDrainScheduled : string := "DrainScheduled".
Definition eventReasonDrainStarting : string := "DrainStarting".
Definition eventReasonDrainSucceeded : string := "DrainSucceeded".
Definition eventReasonDrainFailed : string := "DrainFailed".

Definition tagResultSucceeded : string := "succeeded".
Definition tagResultFailed : string := "failed".

(** The two opencensus measures and the two tag keys. *)
Inductive Measure : Type :=
  | MeasureNodesCordoned
  | MeasureNodesDrained.

Definition TagNodeName : string := "node_name".
Definition TagResult : string := "result".

Definition EventTypeWarning : string := "Warning".

(** A Go [error] that is not nil, by its message. *)
Abbreviation error := string (only parsing).

(** Modelled from the spec: the interface [CordonDrainer] is declared outside
    the two source files; it is the spec's external capability with the two
    synchronous operations [Cordon(node)] and [Drain(node)], each returning an
    error or nil. An implementation may keep state of its own, of type [D]. *)
Class CordonDrainer (D : Type) : Type := {
  Cordon : Node -> D -> option error * D;
  Drain : Node -> D -> option error * D
}.

Record ObjectReference : Type := {
  ref_Kind : string;
  ref_Name : string;
  ref_UID : string
}.

(** Structured fields of a log entry. *)
Inductive field : Type :=
  | FString (key value : string)
  | FError (err : error)
  | FTime (key : string) (t : GoTime.Time).

(** The message of a recorded event: a literal, or a format with its one
    argument. *)
Inductive message : Type :=
  | Text (s : string)
  | ErrorF (format : string) (err : error)
  | TimeF (format : string) (layout : string) (t : GoTime.Time).

Definition RFC3339Nano : string := "2006-01-02T15:04:05.999999999Z07:00".

(** What the handler does to the outside, in the order it happens. *)
Inductive effect : Type :=
  | Log (level : string) (msg : string) (fields : list field)
  | Event (nr : ObjectReference) (eventtype reason : string) (msg : message)
  | StatsRecord (tags : gmap string string) (m : Measure) (v : Z)
  | CallCordon (n : Node)
  | CallDrain (n : Node)
  | AfterFunc (d : GoTime.Duration).

(** The mutable fields of the handler; its logger, recorder and drainer are
    the sinks and the capability of the world below. *)
Record DrainingResourceEventHandler : Type := {
  lastDrainScheduledFor : GoTime.Time;
  buffer : GoTime.Duration
}.

Definition DrainingResourceEventHandlerOption : Type :=
  DrainingResourceEventHandler -> DrainingResourceEventHandler.

Definition WithLogger : DrainingResourceEventHandlerOption := fun h => h.

Definition WithDrainBuffer (d : GoTime.Duration)
  : DrainingResourceEventHandlerOption :=
  fun h => {| lastDrainScheduledFor := lastDrainScheduledFor h; buffer := d |}.

(** [NewDrainingResourceEventHandler], created while the clock reads [now]. *)
Definition NewDrainingResourceEventHandler (now : GoTime.Time)
    (ho : list DrainingResourceEventHandlerOption)
  : DrainingResourceEventHandler :=
  fold_left (fun h o => o h) ho
    {| lastDrainScheduledFor := now; buffer := DefaultDrainBuffer |}.

(** The function value handed to [time.AfterFunc], by the variables it
    captures ([h] is shared, not captured), and the delay it was armed with. *)
Record timer : Type := {
  delay : GoTime.Duration;
  fn_n : Node;
  fn_nr : ObjectReference;
  fn_tags : gmap string string
}.

Section EventHandler.

Context {D : Type} {cd : CordonDrainer D}.

(** The handler, the state of the drainer, everything emitted so far and the
    timers armed and not yet fired. *)
Record World : Type := {
  handler : DrainingResourceEventHandler;
  drainer : D;
  trace : list effect;
  timers : list timer
}.

Definition emit (e : effect) (w : World) : World :=
  {| handler := handler w; drainer := drainer w;
     trace := trace w ++ [e]; timers := timers w |}.

(** [h.lastDrainScheduledFor = t]. *)
Definition setLastDrainScheduledFor (t : GoTime.Time) (w : World) : World :=
  {| handler := {| lastDrainScheduledFor := t; buffer := buffer (handler w) |};
     drainer := drainer w; trace := trace w; timers := timers w |}.

(** [h.d.Cordon(n)] and [h.d.Drain(n)]. *)
Definition callCordon (n : Node) (w : World) : option error * World :=
  let '(err, d') := Cordon n (drainer w) in
  (err, {| handler := handler w; drainer := d';
           trace := trace w ++ [CallCordon n]; timers := timers w |}).

Definition callDrain (n : Node) (w : World) : option error * World :=
  let '(err, d') := Drain n (drainer w) in
  (err, {| handler := handler w; drainer := d';
           trace := trace w ++ [CallDrain n]; timers := timers w |}).

(** [time.AfterFunc(d, f)]: arm a one-shot timer. *)
Definition afterFunc (f : timer) (w : World) : World :=
  {| handler := handler w; drainer := drainer w;
     trace := trace w ++ [AfterFunc (delay f)]; timers := timers w ++ [f] |}.

(** The function armed by [cordonAndDrain], run while the clock reads
    [now]. *)
Definition drainFunc (f : timer) (now : GoTime.Time) (w : World) : World :=
  let n := fn_n f in
  let nr := fn_nr f in
  let tags := fn_tags f in
  let node := FString "node" (Name n) in
  let w := setLastDrainScheduledFor now w in
  let w := emit (Log "debug" "Draining" [node]) w in
  let w := emit (Event nr EventTypeWarning eventReasonDrainStarting
                   (Text "Draining node")) w in
  let '(err, w) := callDrain n w in
  match err with
  | Some err =>
      let w := emit (Log "info" "Failed to drain" [node; FError err]) w in
      let tags := <[TagResult := tagResultFailed]> tags in
      let w := emit (StatsRecord tags MeasureNodesDrained 1) w in
      emit (Event nr EventTypeWarning eventReasonDrainFailed
              (ErrorF "Draining failed: %v" err)) w
  | None =>
      let w := emit (Log "info" "Drained" [node]) w in
      let tags := <[TagResult := tagResultSucceeded]> tags in
      let w := emit (StatsRecord tags MeasureNodesDrained 1) w in
      emit (Event nr EventTypeWarning eventReasonDrainSucceeded
              (Text "Drained node")) w
  end.

(** [h.cordonAndDrain(n)]; [now] is the reading of [time.Now()] on the
    path that takes one. *)
Definition cordonAndDrain (n : Node) (now : GoTime.Time) (w : World) : World :=
  let node := FString "node" (Name n) in
  let tags : gmap string string := <[TagNodeName := Name n]> ∅ in
  let nr := {| ref_Kind := "Node"; ref_Name := Name n; ref_UID := Name n |} in
  let w := emit (Log "debug" "Cordoning" [node]) w in
  let w := emit (Event nr EventTypeWarning eventReasonCordonStarting
                   (Text "Cordoning node")) w in
  let '(err, w) := callCordon n w in
  match err with
  | Some err =>
      let w := emit (Log "info" "Failed to cordon" [node; FError err]) w in
      let tags := <[TagResult := tagResultFailed]> tags in
      let w := emit (StatsRecord tags MeasureNodesCordoned 1) w in
      emit (Event nr EventTypeWarning eventReasonCordonFailed
              (ErrorF "Cordoning failed: %v" err)) w
  | None =>
      let w := emit (Log "info" "Cordoned" [node]) w in
      let tags := <[TagResult := tagResultSucceeded]> tags in
      let w := emit (StatsRecord tags MeasureNodesCordoned 1) w in
      let w := emit (Event nr EventTypeWarning eventReasonCordonSucceeded
                       (Text "Cordoned node")) w in
      let t := now in
      let d := GoTime.addDuration
                 (GoTime.Sub (lastDrainScheduledFor (handler w)) t)
                 (buffer (handler w)) in
      let w := setLastDrainScheduledFor (GoTime.Add t d) w in
      let w := emit (Log "info" "Scheduled drain"
                       [node; FTime "after" (lastDrainScheduledFor (handler w))]) w in
      let w := emit (Event nr EventTypeWarning eventReasonDrainScheduled
                       (TimeF "Will drain node after %s" RFC3339Nano
                          (lastDrainScheduledFor (handler w)))) w in
      afterFunc {| delay := d; fn_n := n; fn_nr := nr; fn_tags := tags |} w
  end.

Definition OnAdd (obj : object) (now : GoTime.Time) (w : World) : World :=
  match asNode obj with
  | None => w
  | Some n => cordonAndDrain n now w
  end.

Definition OnUpdate (oldObj newObj : object) (now : GoTime.Time) (w : World)
  : World :=
  OnAdd newObj now w.

Definition OnDelete (obj : object) (w : World) : World := w.

(** The [i]-th armed timer fires while the clock reads [now]: it leaves the
    armed timers and its function runs. *)
Definition fire (i : nat) (now : GoTime.Time) (w : World) : World :=
  match timers w !! i with
  | None => w
  | Some f =>
      drainFunc f now
        {| handler := handler w; drainer := drainer w; trace := trace w;
           timers := take i (timers w) ++ drop (S i) (timers w) |}
  end.

(** The steps of a handler whose calls are serialised: a call of
    [cordonAndDrain] or the firing of an armed timer, each with the clock
    reading it sees. *)
Inductive label : Type :=
  | LCordon (n : Node) (now : GoTime.Time)
  | LFire (i : nat) (now : GoTime.Time).

Definition step (w : World) (l : label) : World :=
  match l with
  | LCordon n now => cordonAndDrain n now w
  | LFire i now => fire i now w
  end.

Definition run (w : World) (ls : list label) : World := fold_left step ls w.

(** The worlds a run passes through, the first one included. *)
Fixpoint states (w : World) (ls : list label) : list World :=
  match ls with
  | [] => [w]
  | l :: rest => w :: states (step w l) rest
  end.

(** What the sinks have received. *)
Definition eventReasons (tr : list effect) : list string :=
  omap (fun e => match e with Event _ _ reason _ => Some reason | _ => None end) tr.

Definition measurements (tr : list effect)
  : list (Measure * gmap string string * Z) :=
  omap (fun e => match e with StatsRecord tags m v => Some (m, tags, v) | _ => None end) tr.

Definition drainCalls (tr : list effect) : list Node :=
  omap (fun e => match e with CallDrain n => Some n | _ => None end) tr.

Definition cordonCalls (tr : list effect) : list Node :=
  omap (fun e => match e with CallCordon n => Some n | _ => None end) tr.

End EventHandler.

Arguments World D : clear implicits.

(** A drainer without state whose two operations always succeed. *)
#[global] Instance alwaysSucceeds : CordonDrainer unit := {|
  Cordon := fun _ d => (None, d);
  Drain := fun _ d => (None, d)
|}.

(** A drainer without state whose two operations always fail. *)
Definition alwaysFails : CordonDrainer unit := {|
  Cordon := fun _ d => (Some "boom", d);
  Drain := fun _ d => (Some "boom", d)
|}.

(** A drainer without state that cordons and then fails to drain. *)
Definition drainFails : CordonDrainer unit := {|
  Cordon := fun _ d => (None, d);
  Drain := fun _ d => (Some "boom", d)
|}.

(** A clock that reads [first] once and [later] from then on. *)
Definition twoReadings (first later : GoTime.Time) : nat -> GoTime.Time :=
  fun k => match k with O => first | S _ => later end.

Definition exampleNode : Node :=
  {| Name := "n1"; UID := "uid-1"; Labels := ∅; Unschedulable := false;
     Conditions := [] |}.

Definition nodeWithUID (uid : string) : Node :=
  {| Name := uid; UID := uid; Labels := ∅; Unschedulable := false;
     Conditions := [] |}.

(** A clock that reads [now] for the whole of a call. *)
Definition constantClock (now : GoTime.Time) : nat -> GoTime.Time := fun _ => now.

(** A node that has been [Ready=False] since instant 0. *)
Definition notReadyNode : Node :=
  {| Name := "n1"; UID := "uid-1"; Labels := ∅; Unschedulable := false;
     Conditions := [ {| cond_Type := "Ready"; cond_Status := "False";
                        cond_LastTransitionTime := 0 |} ] |}.

Definition readyFalse5m : SuppliedCondition :=
  {| Type_ := "Ready"; Status := "False"; MinimumDuration := 5 * GoTime.Minute |}.

(** The handler fields after a successful cordon that reads the clock at
    [now]: lines 144 to 146 of eventhandler.go on their own. *)
Definition schedule (now : GoTime.Time) (h : DrainingResourceEventHandler)
  : DrainingResourceEventHandler :=
  {| lastDrainScheduledFor :=
       GoTime.Add now
         (GoTime.addDuration (GoTime.Sub (lastDrainScheduledFor h) now) (buffer h));
     buffer := buffer h |}.

(** A world around a handler, before anything has happened. *)
Definition freshWorld {D : Type} (h : DrainingResourceEventHandler) (d : D)
  : World D :=
  {| handler := h; drainer := d; trace := []; timers := [] |}.

(** Along a run, the delay [(lastDrainScheduledFor - now) + buffer] of every
    cordon that succeeds stays within the largest [Duration]. *)
Fixpoint delaysFit {D : Type} {cd : CordonDrainer D} (w : World D) (ls : list label)
  : Prop :=
  match ls with
  | [] => True
  | l :: rest =>
      match l with
      | LCordon n now =>
          (Cordon n (drainer w)).1 = None ->
          lastDrainScheduledFor (handler w) - now + buffer (handler w)
          <= GoTime.maxDuration
      | LFire _ _ => True
      end
      /\ delaysFit (step w l) rest
  end.

(** The delays of the timers armed so far. *)
Definition armings (tr : list effect) : list GoTime.Duration :=
  omap (fun e => match e with AfterFunc d => Some d | _ => None end) tr.

(** The notifications of the informer, each with the clock reading its
    handling sees. *)
Inductive notification : Type :=
  | NAdd (obj : object) (now : GoTime.Time)
  | NUpdate (oldObj newObj : object) (now : GoTime.Time)
  | NDelete (obj : object).

Definition notify {D : Type} {cd : CordonDrainer D} (w : World D)
    (x : notification) : World D :=
  match x with
  | NAdd obj now => OnAdd obj now w
  | NUpdate oldObj newObj now => OnUpdate oldObj newObj now w
  | NDelete obj => OnDelete obj w
  end.

(** The handler receives the notifications one after the other. *)
Definition deliver {D : Type} {cd : CordonDrainer D} (w : World D)
    (xs : list notification) : World D :=
  fold_left notify xs w.

(** The node a notification makes the handler act on, if any. *)
Definition notifiedNode (x : notification) : option Node :=
  match x with
  | NAdd obj _ => asNode obj
  | NUpdate _ newObj _ => asNode newObj
  | NDelete _ => None
  end.

(** The seven reasons of the events the handler records. *)
Definition eventReasonsKnown : list string :=
  [ eventReasonCordonStarting; eventReasonCordonSucceeded; eventReasonCordonFailed;
    eventReasonDrainScheduled; eventReasonDrainStarting; eventReasonDrainSucceeded;
    eventReasonDrainFailed ].

(** The shape of what reaches the recorder and the stats: events are warnings
    about an object of kind Node whose UID is the node's name, with a known
    reason; measurements have value 1 and carry the node's name and a
    result. *)
Definition effectShaped (e : effect) : Prop :=
  match e with
  | Event nr eventtype reason _ =>
      ref_Kind nr = "Node" /\ ref_UID nr = ref_Name nr
      /\ eventtype = EventTypeWarning /\ reason ∈ eventReasonsKnown
  | StatsRecord tags _ v =>
      v = 1
      /\ exists name result : string,
           tags = <[TagResult := result]> (<[TagNodeName := name]> ∅)
           /\ (result = tagResultSucceeded \/ result = tagResultFailed)
  | _ => True
  end.

(** What the function of an armed timer has captured. *)
Definition timerShaped (f : timer) : Prop :=
  fn_nr f = {| ref_Kind := "Node"; ref_Name := Name (fn_n f);
               ref_UID := Name (fn_n f) |}
  /\ fn_tags f
     = <[TagResult := tagResultSucceeded]> (<[TagNodeName := Name (fn_n f)]> ∅).

(** The object reference that [cordonAndDrain] builds for a node: kind Node,
    and the node's name as both name and UID. *)
Definition nodeReference (n : Node) : ObjectReference :=
  {| ref_Kind := "Node"; ref_Name := Name n; ref_UID := Name n |}.

(** An event is a warning with a known reason about one of the nodes
    [handled]. *)
Definition eventAbout (handled : list Node) (e : effect) : Prop :=
  match e with
  | Event nr eventtype reason _ =>
      (exists n, n ∈ handled /\ nr = nodeReference n)
      /\ eventtype = EventTypeWarning /\ reason ∈ eventReasonsKnown
  | _ => True
  end.

(** An armed timer reports under the reference of its own node, one of the
    nodes [handled]. *)
Definition timerAbout (handled : list Node) (f : timer) : Prop :=
  fn_nr f = nodeReference (fn_n f) /\ fn_n f ∈ handled.

(** The options this package exports. *)
Definition exportedOption (o : DrainingResourceEventHandlerOption) : Prop :=
  o = WithLogger \/ exists d, o = WithDrainBuffer d.

(** A handler created at instant 0 with the default buffer, in a world whose
    drainer always succeeds. *)
Definition defaultWorld : World unit :=
  freshWorld (NewDrainingResourceEventHandler 0 []) tt.

(** A handler created at instant 0 with the largest buffer a [Duration] can
    hold. *)
Definition maxBufferWorld : World unit :=
  freshWorld (NewDrainingResourceEventHandler 0 [WithDrainBuffer GoTime.maxDuration]) tt.

(** A handler created at instant 0 with a buffer of one second. *)
Definition oneSecondWorld : World unit :=
  freshWorld (NewDrainingResourceEventHandler 0 [WithDrainBuffer GoTime.Second]) tt.

Example ParseDuration_5m f : GoTime.ParseDuration f "5m" = Some (5 * GoTime.Minute).
Proof. reflexivity. Qed.
Example ParseDuration_0s f : GoTime.ParseDuration f "0s" = Some 0.
Proof. reflexivity. Qed.
Example ParseDuration_1h30m f : GoTime.ParseDuration f "-1h30m" = Some (- 5400 * GoTime.Second).
Proof. reflexivity. Qed.
Example ParseDuration_bad f : GoTime.ParseDuration f "bad" = None.
Proof. reflexivity. Qed.
Example ParseDuration_frac : GoTime.ParseDuration GoTime.exactFraction "1.5s" = Some 1500000000.
Proof. reflexivity. Qed.
Example SplitN2_ex : GoStrings.SplitN2 "Ready=False,5m" "="%char = ["Ready"; "False,5m"].
Proof. reflexivity. Qed.

Example ParseConditions_ex f :
  ParseConditions f ["Ready=False,5m"; "Ready"; "X=Y,zz"]
  = Ok [ {| Type_ := "Ready"; Status := "False"; MinimumDuration := 5 * GoTime.Minute |};
         {| Type_ := "Ready"; Status := "True"; MinimumDuration := 0 |};
         zeroSuppliedCondition ].
Proof. reflexivity. Qed.
Example ParseConditions_bad f :
  ParseConditions f ["Ready=bad"] = Panic "index out of range".
Proof. reflexivity. Qed.

Example cordon_then_fire :
  let w0 := {| handler := NewDrainingResourceEventHandler 0 [WithDrainBuffer GoTime.Second];
               drainer := tt; trace := []; timers := [] |} in
  let w := run w0 [LCordon exampleNode 5; LFire 0%nat 1000000000] in
  eventReasons (trace w) = ["CordonStarting"; "CordonSucceeded"; "DrainScheduled"; "DrainStarting"; "DrainSucceeded"]
  /\ map delay (timers (run w0 [LCordon exampleNode 5])) = [GoTime.Second - 5]
  /\ lastDrainScheduledFor (handler (run w0 [LCordon exampleNode 5])) = GoTime.Second.
Proof. vm_compute. auto. Qed.

(** ** The model of [time.ParseDuration] never runs out of fuel *)

Lemma leadingIntFrom_length (s : string) :
  forall (x v : N) (r : string),
    GoTime.leadingIntFrom x s = Some (v, r) ->
    (String.length r <= String.length s)%nat.
Proof.
  induction s as [|c rest IH]; intros x v r Hl; simpl in Hl.
  - injection Hl as _ <-. reflexivity.
  - destruct (GoTime.isDigit c).
    + destruct (2 ^ 63 / 10 <? x)%N; [discriminate |].
      destruct (2 ^ 63 <? x * 10 + GoTime.digitVal c)%N; [discriminate |].
      apply IH in Hl. simpl. lia.
    + injection Hl as _ <-. reflexivity.
Qed.

Lemma leadingFractionFrom_length (s : string) :
  forall (x : N) (k : nat) (o : bool),
    (String.length (GoTime.leadingFractionFrom x k o s).2 <= String.length s)%nat.
Proof.
  induction s as [|c rest IH]; intros x k o; simpl.
  - reflexivity.
  - destruct (GoTime.isDigit c); [| reflexivity].
    destruct o; [specialize (IH x k true); lia |].
    destruct ((2 ^ 63 - 1) / 10 <? x)%N; [specialize (IH x k true); lia |].
    destruct (2 ^ 63 <? x * 10 + GoTime.digitVal c)%N;
      [specialize (IH x k true) | specialize (IH (x * 10 + GoTime.digitVal c)%N (S k) false)];
      lia.
Qed.

Lemma splitUnit_length (s : string) :
  String.length s
  = (String.length (GoTime.splitUnit s).1 + String.length (GoTime.splitUnit s).2)%nat.
Proof.
  induction s as [|c rest IH]; simpl; [reflexivity |].
  destruct (GoTime.isDot c || GoTime.isDigit c); [reflexivity |].
  destruct (GoTime.splitUnit rest) as [u r]. simpl in *. lia.
Qed.

(** Any two amounts of fuel that cover the length of the string give the same
    result: the bound [String.length s] that [ParseDuration] passes is never
    the reason for an answer. *)
Lemma parseTerms_fuel (fracNanos : N -> N -> nat -> N) (fuel1 : nat) :
  forall (fuel2 : nat) (d : N) (s : string),
    (String.length s <= fuel1)%nat -> (String.length s <= fuel2)%nat ->
    GoTime.parseTerms fracNanos fuel1 d s = GoTime.parseTerms fracNanos fuel2 d s.
Proof.
  induction fuel1 as [|fuel1 IH]; intros fuel2 d s H1 H2.
  - destruct s; [destruct fuel2; reflexivity | simpl in H1; lia].
  - destruct s as [|c0 s0]; [destruct fuel2; reflexivity |].
    destruct fuel2 as [|fuel2]; [simpl in H2; lia |].
    cbn [GoTime.parseTerms].
    destruct (negb (GoTime.isDot c0 || GoTime.isDigit c0)); [reflexivity |].
    destruct (GoTime.leadingInt (String c0 s0)) as [[v s1]|] eqn:Hli; [| reflexivity].
    apply leadingIntFrom_length in Hli.
    set (pre := negb (String.length (String c0 s0) =? String.length s1)%nat).
    assert (Hfrac : forall r, (String.length (GoTime.leadingFraction r).2
                               <= String.length r)%nat)
      by (intros r; apply leadingFractionFrom_length).
    assert (Hs2 : exists f k post s2,
               match s1 with
               | String c1 r =>
                   if GoTime.isDot c1
                   then let '(f, k, r') := GoTime.leadingFraction r in
                        (f, k, negb (String.length r =? String.length r')%nat, r')
                   else (0%N, 0%nat, false, s1)
               | EmptyString => (0%N, 0%nat, false, s1)
               end = (f, k, post, s2)
               /\ (pre || post = true -> String.length s2 < String.length (String c0 s0))%nat
               /\ (String.length s2 <= String.length (String c0 s0))%nat).
    { destruct s1 as [|c1 r].
      - exists 0%N, 0%nat, false, EmptyString. split; [reflexivity |]. simpl. split; lia.
      - destruct (GoTime.isDot c1).
        + specialize (Hfrac r). destruct (GoTime.leadingFraction r) as [[f k] r'].
          simpl in Hfrac. exists f, k, (negb (String.length r =? String.length r')%nat), r'.
          split; [reflexivity |]. simpl in *. split; lia.
        + exists 0%N, 0%nat, false, (String c1 r). split; [reflexivity |].
          split; [| exact Hli]. rewrite orb_false_r. unfold pre. intros Hpre.
          apply negb_true_iff, Nat.eqb_neq in Hpre. lia. }
    destruct Hs2 as [f [k [post [s2 [-> [Hlt Hle]]]]]].
    destruct (negb pre && negb post) eqn:Hpp; [reflexivity |].
    assert (Hs2lt : (String.length s2 <= String.length (String c0 s0))%nat) by exact Hle.
    pose proof (splitUnit_length s2) as Hsu.
    destruct (GoTime.splitUnit s2) as [u s3]. simpl in Hsu.
    destruct u as [|cu u']; [reflexivity |].
    destruct (GoTime.unitMap (String cu u')) as [unit|]; [| reflexivity].
    destruct (2 ^ 63 / unit <? v)%N; [reflexivity |].
    match goal with |- context [if ?b then None else _] => destruct b end; [reflexivity |].
    match goal with |- context [if ?b then None else _] => destruct b end; [reflexivity |].
    apply IH; simpl in *; lia.
Qed.

(** ** Properties of the node filters *)

Lemma mapIndex_matches (m : gmap string string) (k v : string) :
  (let '(value, ok) := mapIndex m k in negb (String.eqb value v) || negb ok) = false
  <-> m !! k = Some v.
Proof.
  unfold mapIndex. destruct (m !! k) as [x|] eqn:E; simpl.
  - rewrite orb_false_r, negb_false_iff, String.eqb_eq.
    split; [intros ->; reflexivity | intros [= ->]; reflexivity].
  - rewrite orb_true_r. split; discriminate.
Qed.

(** The loop succeeds exactly when every entry it visits is on the node. *)
Lemma labelLoop_true (entries : list (string * string)) (n : Node) :
  labelLoop entries n = true
  <-> forall k v, (k, v) ∈ entries -> Labels n !! k = Some v.
Proof.
  induction entries as [|[k v] rest IH]; simpl.
  - split; [intros _ k v Hin; inversion Hin | reflexivity].
  - pose proof (mapIndex_matches (Labels n) k v) as Hm.
    destruct (mapIndex (Labels n) k) as [value ok].
    destruct (negb (String.eqb value v) || negb ok) eqn:E.
    + split; [discriminate |].
      intros Hall. apply not_true_iff_false in E. exfalso. apply E.
      destruct (Hm) as [_ Hm2]. rewrite Hm2 in E; [congruence |].
      apply Hall. left.
    + destruct Hm as [Hm1 _]. specialize (Hm1 eq_refl).
      rewrite IH. split.
      * intros Hrest k' v' Hin. apply elem_of_cons in Hin as [[= -> ->]|Hin]; auto.
      * intros Hall k' v' Hin. apply Hall. right. exact Hin.
Qed.

(** The order in which [range] visits the map does not matter. *)
Lemma labelLoop_Permutation (e1 e2 : list (string * string)) (n : Node) :
  e1 ≡ₚ e2 -> labelLoop e1 n = labelLoop e2 n.
Proof.
  intros Hp. apply eq_true_iff_eq. rewrite !labelLoop_true.
  split; intros Hall k v Hin; apply Hall; [rewrite Hp | rewrite <- Hp]; exact Hin.
Qed.

(** C9. For every node and every required label mapping, the label filter
    returns true iff every required key is among the node's labels with
    exactly the required value, that is, iff the required mapping is included
    in the node's label map; the empty requirement yields true for every
    node. *)
Theorem NewNodeLabelFilter_superset (labels : gmap string string) (n : Node) :
  (NewNodeLabelFilter labels (ONode n) = true
     <-> forall k v, labels !! k = Some v -> Labels n !! k = Some v)
  /\ (NewNodeLabelFilter labels (ONode n) = true <-> labels ⊆ Labels n)
  /\ NewNodeLabelFilter ∅ (ONode n) = true.
Proof.
  assert (Hmain : NewNodeLabelFilter labels (ONode n) = true
     <-> forall k v, labels !! k = Some v -> Labels n !! k = Some v).
  { unfold NewNodeLabelFilter; simpl. rewrite labelLoop_true.
    split; intros Hall k v Hk; apply Hall.
    - apply elem_of_map_to_list. exact Hk.
    - apply elem_of_map_to_list in Hk. exact Hk. }
  split; [exact Hmain | split].
  - rewrite Hmain. symmetry. apply map_subseteq_spec.
  - unfold NewNodeLabelFilter; simpl. rewrite map_to_list_empty. reflexivity.
Qed.

Lemma NewNodeLabelFilter_not_node (labels : gmap string string) :
  NewNodeLabelFilter labels OOther = false.
Proof. reflexivity. Qed.

(** *** The processed filter *)

Lemma processedIndex_Filter (p : gmap string bool) (o : object) (uid : string) :
  processedIndex (Filter p o).2 uid = false
  <-> processedIndex p uid = false
      /\ forall m, o = ONode m -> UID m <> uid.
Proof.
  unfold Filter. destruct o as [m|]; simpl.
  - destruct (processedIndex p (UID m)) eqn:E; simpl.
    + split.
      * intros Hp. split; [exact Hp |]. intros m' [= <-] Heq. congruence.
      * intros [Hp _]. exact Hp.
    + unfold processedIndex. destruct (decide (UID m = uid)) as [Heq|Hne].
      * rewrite <- Heq, lookup_insert_eq. simpl. split; [discriminate |].
        intros [_ Hm]. exfalso. apply (Hm m); reflexivity.
      * rewrite lookup_insert_ne by exact Hne. split.
        -- intros Hp. split; [exact Hp |]. intros m' [= <-]. exact Hne.
        -- intros [Hp _]. exact Hp.
  - split; [intros Hp; split; [exact Hp | discriminate] | intros [Hp _]; exact Hp].
Qed.

Lemma filterCalls_cons (p : gmap string bool) (o : object) (rest : list object) :
  (filterCalls p (o :: rest)).1
  = (Filter p o).1 :: (filterCalls (Filter p o).2 rest).1.
Proof.
  simpl. destruct (Filter p o) as [b p']. simpl.
  destruct (filterCalls p' rest) as [bs final]. reflexivity.
Qed.

(** From any map: the call for a node answers true exactly when its UID is
    neither in the map nor carried by an earlier call. *)
Lemma filterCalls_lookup (os : list object) :
  forall (p : gmap string bool) (i : nat) (n : Node),
    os !! i = Some (ONode n) ->
    exists b, (filterCalls p os).1 !! i = Some b
      /\ (b = true <->
           processedIndex p (UID n) = false
           /\ forall j m, (j < i)%nat -> os !! j = Some (ONode m) -> UID m <> UID n).
Proof.
  induction os as [|o rest IH]; intros p i n Hi.
  - rewrite lookup_nil in Hi. discriminate.
  - rewrite filterCalls_cons. destruct i as [|i]; simpl in Hi.
    + injection Hi as ->. exists (Filter p (ONode n)).1. split; [reflexivity |].
      unfold Filter; simpl. destruct (processedIndex p (UID n)); simpl.
      * split; [discriminate | intros [Hp _]; discriminate].
      * split; [| reflexivity]. intros _. split; [reflexivity |]. intros j m Hj. lia.
    + destruct (IH (Filter p o).2 i n Hi) as [b [Hb Hiff]].
      exists b. split; [exact Hb |]. rewrite Hiff, processedIndex_Filter.
      split.
      * intros [[Hp Ho] Hrest]. split; [exact Hp |].
        intros [|j] m Hj Hm; simpl in Hm.
        -- injection Hm as ->. apply (Ho m). reflexivity.
        -- apply (Hrest j m); [lia | exact Hm].
      * intros [Hp Hall]. split; [split; [exact Hp |] |].
        -- intros m ->. apply (Hall 0%nat m); [lia | reflexivity].
        -- intros j m Hj Hm. apply (Hall (S j) m); [lia | exact Hm].
Qed.

(** C7. In any sequence of calls on a fresh processed map, the call for a node
    returns true iff no earlier call of the sequence carried a node with the
    same identifier: true the first time an identifier is seen, false on
    every later call for it, whatever calls for other identifiers come in
    between. *)
Theorem Filter_first_time_only (os : list object) (i : nat) (n : Node) :
  os !! i = Some (ONode n) ->
  exists b, (filterCalls NewNodeProcessed os).1 !! i = Some b
    /\ (b = true <->
         forall j m, (j < i)%nat -> os !! j = Some (ONode m) -> UID m <> UID n).
Proof.
  intros Hi. destruct (filterCalls_lookup os NewNodeProcessed i n Hi) as [b [Hb Hiff]].
  exists b. split; [exact Hb |]. rewrite Hiff.
  unfold NewNodeProcessed, processedIndex. rewrite lookup_empty. simpl.
  split; [intros [_ Hall]; exact Hall | intros Hall; split; [reflexivity | exact Hall]].
Qed.

Lemma Filter_first_time_only_witness :
  exists b,
    (filterCalls NewNodeProcessed
       [ONode (nodeWithUID "a"); ONode (nodeWithUID "b"); ONode (nodeWithUID "a")]).1
      !! 2%nat = Some b
    /\ (b = true <->
         forall j m, (j < 2)%nat ->
           [ONode (nodeWithUID "a"); ONode (nodeWithUID "b"); ONode (nodeWithUID "a")]
             !! j = Some (ONode m) ->
           UID m <> UID (nodeWithUID "a")).
Proof.
  apply (Filter_first_time_only
           [ONode (nodeWithUID "a"); ONode (nodeWithUID "b"); ONode (nodeWithUID "a")]
           2%nat (nodeWithUID "a")).
  reflexivity.
Defined.

(** *** The condition filter *)

(** Whatever the clock does between two bounds: a match found was due before
    the latest reading, and a match due before the earliest reading is
    found. *)
Lemma conditionLoop_bounds (t : SuppliedCondition) (cs : list NodeCondition)
    (clock : nat -> Z) (lo hi : Z) :
  (forall k, lo <= clock k <= hi) ->
  forall reads,
    ((conditionLoop t cs clock reads).1 = true ->
     exists c, c ∈ cs /\ sameTypeStatus t c
       /\ cond_LastTransitionTime c + MinimumDuration t < hi)
    /\ ((exists c, c ∈ cs /\ sameTypeStatus t c
          /\ cond_LastTransitionTime c + MinimumDuration t < lo) ->
        (conditionLoop t cs clock reads).1 = true).
Proof.
  intros Hclock. unfold sameTypeStatus.
  induction cs as [|c rest IH]; intros reads; simpl.
  - split; [discriminate | intros [c [Hin _]]; inversion Hin].
  - destruct (String.eqb (cond_Type c) (Type_ t)
              && String.eqb (cond_Status c) (Status t)) eqn:E.
    + apply andb_true_iff in E as [Ety Est]. apply String.eqb_eq in Ety, Est.
      unfold GoTime.Before, GoTime.Add.
      destruct (Z.ltb_spec (cond_LastTransitionTime c + MinimumDuration t) (clock reads))
        as [Hlt|Hge]; simpl.
      * split; [intros _ | reflexivity].
        exists c. split; [left |]. specialize (Hclock reads). repeat split; auto; lia.
      * destruct (IH (S reads)) as [IH1 IH2]. split.
        -- intros Hfound. destruct (IH1 Hfound) as [c' [Hin Hc']].
           exists c'. split; [right; exact Hin | exact Hc'].
        -- intros [c' [Hin [Hsame Hdue]]]. apply IH2.
           apply elem_of_cons in Hin as [->|Hin]; [| exists c'; auto].
           specialize (Hclock reads). lia.
    + destruct (IH reads) as [IH1 IH2]. split.
      * intros Hfound. destruct (IH1 Hfound) as [c' [Hin Hc']].
        exists c'. split; [right; exact Hin | exact Hc'].
      * intros [c' [Hin [[Hty Hst] Hdue]]]. apply IH2.
        apply elem_of_cons in Hin as [->|Hin]; [| exists c'; auto].
        apply not_true_iff_false in E. exfalso. apply E.
        rewrite andb_true_iff, !String.eqb_eq. auto.
Qed.

Lemma suppliedLoop_bounds (pc : list SuppliedCondition) (n : Node)
    (clock : nat -> Z) (lo hi : Z) :
  (forall k, lo <= clock k <= hi) ->
  forall reads,
    ((suppliedLoop pc n clock reads).1 = true ->
     exists t c, t ∈ pc /\ c ∈ Conditions n /\ sameTypeStatus t c
       /\ cond_LastTransitionTime c + MinimumDuration t < hi)
    /\ ((exists t c, t ∈ pc /\ c ∈ Conditions n /\ sameTypeStatus t c
          /\ cond_LastTransitionTime c + MinimumDuration t < lo) ->
        (suppliedLoop pc n clock reads).1 = true).
Proof.
  intros Hclock. induction pc as [|t rest IH]; intros reads; simpl.
  - split; [discriminate | intros [t [c [Hin _]]]; inversion Hin].
  - destruct (conditionLoop_bounds t (Conditions n) clock lo hi Hclock reads)
      as [Hc1 Hc2].
    destruct (conditionLoop t (Conditions n) clock reads) as [found reads'].
    simpl in Hc1, Hc2. destruct found; simpl.
    + split; [intros _ | reflexivity].
      destruct (Hc1 eq_refl) as [c [Hin Hc]]. exists t, c. split; [left | auto].
    + destruct (IH reads') as [IH1 IH2]. split.
      * intros Hfound. destruct (IH1 Hfound) as [t' [c [Hin Hc]]].
        exists t', c. split; [right; exact Hin | exact Hc].
      * intros [t' [c [Hin [Hcin Hc]]]]. apply IH2.
        apply elem_of_cons in Hin as [->|Hin]; [| exists t', c; auto].
        assert (Habs : false = true); [| discriminate Habs].
        apply Hc2. exists c. auto.
Qed.

(** C2, as the code has it. For every node, every non-empty list of condition
    strings that [ParseConditions] turns into the specs [pc], and a clock that
    reads [now] throughout the call, the condition filter returns, and
    returns true iff some current condition of the node equals some spec of
    [pc] on type and status and the time since its last transition is
    strictly more than that spec's minimum duration (so the boundary
    [now = lastTransitionTime + duration] counts as false); for the empty
    list the filter returns true for every node. *)
Theorem NewNodeConditionFilter_strict (fracNanos : N -> N -> nat -> N)
    (ct : list string) (pc : list SuppliedCondition) (clock : nat -> Z)
    (now : Z) (n : Node) :
  ParseConditions fracNanos ct = Ok pc ->
  (forall k, clock k = now) ->
  (ct <> [] ->
   exists b, NewNodeConditionFilter fracNanos ct clock (ONode n) = Ok b
     /\ (b = true <->
          exists t c, t ∈ pc /\ c ∈ Conditions n
            /\ cond_Type c = Type_ t /\ cond_Status c = Status t
            /\ MinimumDuration t < now - cond_LastTransitionTime c))
  /\ NewNodeConditionFilter fracNanos [] clock (ONode n) = Ok true.
Proof.
  intros Hpc Hclock. split; [| reflexivity].
  intros Hne. exists (suppliedLoop pc n clock 0).1. split.
  - unfold NewNodeConditionFilter; simpl.
    destruct ct as [|c0 ct']; [congruence |]. simpl length. simpl Nat.eqb. cbv iota.
    rewrite Hpc. reflexivity.
  - assert (Hb : forall k, now <= clock k <= now) by (intros k; rewrite Hclock; lia).
    destruct (suppliedLoop_bounds pc n clock now now Hb 0%nat) as [H1 H2].
    unfold sameTypeStatus in *. split.
    + intros Hfound. destruct (H1 Hfound) as [t [c [Ht [Hc [[Hty Hst] Hlt]]]]].
      exists t, c. repeat split; auto. lia.
    + intros [t [c [Ht [Hc [Hty [Hst Hlt]]]]]]. apply H2.
      exists t, c. repeat split; auto. lia.
Qed.

Lemma NewNodeConditionFilter_strict_witness :
  (["Ready=False,5m"] <> [] ->
   exists b, NewNodeConditionFilter GoTime.exactFraction ["Ready=False,5m"]
               (constantClock (5 * GoTime.Minute + 1)) (ONode notReadyNode) = Ok b
     /\ (b = true <->
          exists t c, t ∈ [readyFalse5m] /\ c ∈ Conditions notReadyNode
            /\ cond_Type c = Type_ t /\ cond_Status c = Status t
            /\ MinimumDuration t < 5 * GoTime.Minute + 1 - cond_LastTransitionTime c))
  /\ NewNodeConditionFilter GoTime.exactFraction []
       (constantClock (5 * GoTime.Minute + 1)) (ONode notReadyNode) = Ok true.
Proof.
  apply (NewNodeConditionFilter_strict GoTime.exactFraction ["Ready=False,5m"]
           [readyFalse5m] (constantClock (5 * GoTime.Minute + 1))
           (5 * GoTime.Minute + 1) notReadyNode).
  - reflexivity.
  - reflexivity.
Defined.

(** C2 as stated fails at the boundary: a node that has been [Ready=False]
    for exactly the five minutes the spec asks for has a condition whose time
    since the last transition is at least the minimum duration, and the
    filter returns false. *)
Lemma NewNodeConditionFilter_boundary_false :
  let now := 0 + 5 * GoTime.Minute in
  ParseConditions GoTime.exactFraction ["Ready=False,5m"] = Ok [readyFalse5m]
  /\ NewNodeConditionFilter GoTime.exactFraction ["Ready=False,5m"]
       (constantClock now) (ONode notReadyNode) = Ok false
  /\ ~ (NewNodeConditionFilter GoTime.exactFraction ["Ready=False,5m"]
          (constantClock now) (ONode notReadyNode) = Ok true
        <-> exists t c, t ∈ [readyFalse5m] /\ c ∈ Conditions notReadyNode
              /\ cond_Type c = Type_ t /\ cond_Status c = Status t
              /\ MinimumDuration t <= now - cond_LastTransitionTime c).
Proof.
  intros now. split; [reflexivity |]. split; [reflexivity |].
  intros [_ Hback].
  assert (Hfalse : NewNodeConditionFilter GoTime.exactFraction ["Ready=False,5m"]
                     (constantClock now) (ONode notReadyNode) = Ok false)
    by reflexivity.
  rewrite Hfalse in Hback.
  assert (Habs : @Ok bool false = Ok true); [| discriminate Habs].
  apply Hback.
  exists readyFalse5m, {| cond_Type := "Ready"; cond_Status := "False";
                          cond_LastTransitionTime := 0 |}.
  split; [apply list_elem_of_singleton; reflexivity |].
  split; [apply list_elem_of_singleton; reflexivity |].
  split; [reflexivity |]. split; [reflexivity |].
  vm_compute. discriminate.
Qed.

(** A list that makes [ParseConditions] panic makes the filter panic. *)
Lemma NewNodeConditionFilter_panics (fracNanos : N -> N -> nat -> N)
    (ct : list string) (msg : string) (clock : nat -> Z) (n : Node) :
  ct <> [] -> ParseConditions fracNanos ct = Panic msg ->
  NewNodeConditionFilter fracNanos ct clock (ONode n) = Panic msg.
Proof.
  intros Hne Hp. unfold NewNodeConditionFilter; simpl.
  destruct ct as [|c0 ct']; [congruence |]. simpl length. simpl Nat.eqb. cbv iota.
  rewrite Hp. reflexivity.
Qed.

(** *** ParseConditions *)

(** C3. [ParseConditions(["Ready=False,5m"])] is the one spec
    (Ready, False, 5m) and [ParseConditions(["Ready"])] the one spec
    (Ready, True, 0); on [["Ready=bad"]] the code does not return a zero-value
    entry: the right-hand side has no comma, so [sm] has one element and
    [sm[1]] panics. *)
Theorem ParseConditions_examples (fracNanos : N -> N -> nat -> N) :
  ParseConditions fracNanos ["Ready=False,5m"]
    = Ok [ {| Type_ := "Ready"; Status := "False";
              MinimumDuration := 5 * GoTime.Minute |} ]
  /\ ParseConditions fracNanos ["Ready"]
    = Ok [ {| Type_ := "Ready"; Status := "True"; MinimumDuration := 0 |} ]
  /\ ParseConditions fracNanos ["Ready=bad"] = Panic "index out of range".
Proof. repeat split. Qed.

(** A duration that is present and malformed is the case the code handles:
    the entry stays the zero value and the length is kept. *)
Lemma ParseConditions_malformed_duration (fracNanos : N -> N -> nat -> N) :
  ParseConditions fracNanos ["Ready=False,bad"; "Ready"]
  = Ok [ zeroSuppliedCondition;
         {| Type_ := "Ready"; Status := "True"; MinimumDuration := 0 |} ].
Proof. reflexivity. Qed.

Lemma parseLoop_length (fracNanos : N -> N -> nat -> N) (conditions : list string) :
  forall (i : nat) (parsed pc : list SuppliedCondition),
    parseLoop fracNanos i conditions parsed = Ok pc -> length pc = length parsed.
Proof.
  induction conditions as [|c rest IH]; intros i parsed pc Hp; simpl in Hp.
  - injection Hp as <-. reflexivity.
  - destruct (parseCondition fracNanos c) as [[sc|]|msg]; simpl in Hp.
    + apply IH in Hp. rewrite Hp. apply length_insert.
    + apply IH in Hp. exact Hp.
    + discriminate.
Qed.

(** X1. When [ParseConditions] returns, the list has the length of its input. *)
Lemma ParseConditions_length (fracNanos : N -> N -> nat -> N)
    (conditions : list string) (pc : list SuppliedCondition) :
  ParseConditions fracNanos conditions = Ok pc -> length pc = length conditions.
Proof.
  unfold ParseConditions. intros Hp. apply parseLoop_length in Hp.
  rewrite Hp. apply length_replicate.
Qed.

(** An entry with an equals sign and no comma after it makes the whole call
    panic, wherever it stands. *)
Lemma parseCondition_no_comma (fracNanos : N -> N -> nat -> N)
    (c before after : string) :
  GoStrings.cut "="%char c = Some (before, after) ->
  GoStrings.cut ","%char after = None ->
  parseCondition fracNanos c = Panic "index out of range".
Proof.
  intros Heq Hcomma. unfold parseCondition, GoStrings.SplitN2.
  rewrite Heq. simpl. rewrite Hcomma. reflexivity.
Qed.

(** ** Properties of the draining event handler *)

Lemma int64_id (z : Z) : GoTime.isDuration z -> GoTime.int64 z = z.
Proof.
  unfold GoTime.isDuration, GoTime.minDuration, GoTime.maxDuration, GoTime.int64.
  intros Hz. rewrite Z.mod_small; lia.
Qed.

Lemma int64_isDuration (z : Z) : GoTime.isDuration (GoTime.int64 z).
Proof.
  unfold GoTime.isDuration, GoTime.minDuration, GoTime.maxDuration, GoTime.int64.
  pose proof (Z.mod_pos_bound (z + 2 ^ 63) (2 ^ 64) ltac:(lia)). lia.
Qed.

Lemma Sub_exact (t u : Z) : GoTime.isDuration (t - u) -> GoTime.Sub t u = t - u.
Proof.
  unfold GoTime.isDuration, GoTime.Sub. intros [Hlo Hhi].
  destruct (Z.ltb_spec (t - u) GoTime.minDuration); [lia |].
  destruct (Z.ltb_spec GoTime.maxDuration (t - u)); [lia | reflexivity].
Qed.

Lemma Sub_below (t u : Z) :
  t - u < GoTime.minDuration -> GoTime.Sub t u = GoTime.minDuration.
Proof.
  unfold GoTime.Sub. intros Hlt.
  destruct (Z.ltb_spec (t - u) GoTime.minDuration); [reflexivity | lia].
Qed.

Lemma Sub_isDuration (t u : Z) : GoTime.isDuration (GoTime.Sub t u).
Proof.
  unfold GoTime.isDuration, GoTime.Sub, GoTime.minDuration, GoTime.maxDuration.
  destruct (Z.ltb_spec (t - u) (- 2 ^ 63)); [lia |].
  destruct (Z.ltb_spec (2 ^ 63 - 1) (t - u)); lia.
Qed.

(** Without overflow the schedule moves by exactly the buffer. *)
Lemma schedule_exact (now : Z) (h : DrainingResourceEventHandler) :
  GoTime.isDuration (lastDrainScheduledFor h - now) ->
  GoTime.isDuration (lastDrainScheduledFor h - now + buffer h) ->
  lastDrainScheduledFor (schedule now h) = lastDrainScheduledFor h + buffer h.
Proof.
  intros Hd Hs. unfold schedule, GoTime.Add, GoTime.addDuration; simpl.
  rewrite Sub_exact by exact Hd. rewrite int64_id by exact Hs. lia.
Qed.

(** A schedule far in the past saturates the difference; the new schedule is
    then later than the old one by more than the buffer. *)
Lemma schedule_saturated_below (now : Z) (h : DrainingResourceEventHandler) :
  lastDrainScheduledFor h - now < GoTime.minDuration ->
  0 <= buffer h <= GoTime.maxDuration ->
  lastDrainScheduledFor h + buffer h < lastDrainScheduledFor (schedule now h).
Proof.
  intros Hlt Hb. unfold schedule, GoTime.Add, GoTime.addDuration; simpl.
  rewrite Sub_below by exact Hlt. rewrite int64_id.
  - lia.
  - unfold GoTime.isDuration, GoTime.minDuration, GoTime.maxDuration in *. lia.
Qed.

(** Unfold one call of the handler down to its effects on the world. *)
Ltac step_through :=
  unfold cordonAndDrain, drainFunc, callCordon, callDrain, emit, afterFunc,
    setLastDrainScheduledFor; simpl.

Section HandlerFacts.

Context {D : Type} {cd : CordonDrainer D}.

(** The whole effect of a call whose cordon succeeds. *)
Lemma cordonAndDrain_success (n : Node) (now : Z) (w : World D) (d' : D) :
  Cordon n (drainer w) = (None, d') ->
  cordonAndDrain n now w
  = let nr := {| ref_Kind := "Node"; ref_Name := Name n; ref_UID := Name n |} in
    let tags : gmap string string :=
      <[TagResult := tagResultSucceeded]> (<[TagNodeName := Name n]> ∅) in
    let h' := schedule now (handler w) in
    let d := GoTime.addDuration
               (GoTime.Sub (lastDrainScheduledFor (handler w)) now)
               (buffer (handler w)) in
    {| handler := h';
       drainer := d';
       trace := trace w ++
         [ Log "debug" "Cordoning" [FString "node" (Name n)];
           Event nr EventTypeWarning eventReasonCordonStarting (Text "Cordoning node");
           CallCordon n;
           Log "info" "Cordoned" [FString "node" (Name n)];
           StatsRecord tags MeasureNodesCordoned 1;
           Event nr EventTypeWarning eventReasonCordonSucceeded (Text "Cordoned node");
           Log "info" "Scheduled drain"
             [FString "node" (Name n); FTime "after" (lastDrainScheduledFor h')];
           Event nr EventTypeWarning eventReasonDrainScheduled
             (TimeF "Will drain node after %s" RFC3339Nano (lastDrainScheduledFor h'));
           AfterFunc d ];
       timers := timers w ++
         [ {| delay := d; fn_n := n; fn_nr := nr; fn_tags := tags |} ] |}.
Proof.
  intros Hc. unfold cordonAndDrain, callCordon, emit, afterFunc,
    setLastDrainScheduledFor, schedule. simpl. rewrite Hc. simpl.
  rewrite <- !app_assoc. reflexivity.
Qed.

(** The whole effect of a call whose cordon fails. *)
Lemma cordonAndDrain_failure (n : Node) (now : Z) (w : World D) (err : string) (d' : D) :
  Cordon n (drainer w) = (Some err, d') ->
  cordonAndDrain n now w
  = let nr := {| ref_Kind := "Node"; ref_Name := Name n; ref_UID := Name n |} in
    let tags : gmap string string :=
      <[TagResult := tagResultFailed]> (<[TagNodeName := Name n]> ∅) in
    {| handler := handler w;
       drainer := d';
       trace := trace w ++
         [ Log "debug" "Cordoning" [FString "node" (Name n)];
           Event nr EventTypeWarning eventReasonCordonStarting (Text "Cordoning node");
           CallCordon n;
           Log "info" "Failed to cordon" [FString "node" (Name n); FError err];
           StatsRecord tags MeasureNodesCordoned 1;
           Event nr EventTypeWarning eventReasonCordonFailed
             (ErrorF "Cordoning failed: %v" err) ];
       timers := timers w |}.
Proof.
  intros Hc. unfold cordonAndDrain, callCordon, emit. simpl. rewrite Hc. simpl.
  rewrite <- !app_assoc. reflexivity.
Qed.

(** The whole effect of the armed function when the drain succeeds. *)
Lemma drainFunc_success (f : timer) (now : Z) (w : World D) (d' : D) :
  Drain (fn_n f) (drainer w) = (None, d') ->
  drainFunc f now w
  = {| handler := {| lastDrainScheduledFor := now; buffer := buffer (handler w) |};
       drainer := d';
       trace := trace w ++
         [ Log "debug" "Draining" [FString "node" (Name (fn_n f))];
           Event (fn_nr f) EventTypeWarning eventReasonDrainStarting (Text "Draining node");
           CallDrain (fn_n f);
           Log "info" "Drained" [FString "node" (Name (fn_n f))];
           StatsRecord (<[TagResult := tagResultSucceeded]> (fn_tags f))
             MeasureNodesDrained 1;
           Event (fn_nr f) EventTypeWarning eventReasonDrainSucceeded (Text "Drained node") ];
       timers := timers w |}.
Proof.
  intros Hd. step_through.
  rewrite Hd. simpl. rewrite <- !app_assoc. reflexivity.
Qed.

Lemma handler_cordonAndDrain (n : Node) (now : Z) (w : World D) :
  handler (cordonAndDrain n now w)
  = match (Cordon n (drainer w)).1 with
    | None => schedule now (handler w)
    | Some _ => handler w
    end.
Proof.
  destruct (Cordon n (drainer w)) as [[err|] d'] eqn:Hc; simpl.
  - rewrite (cordonAndDrain_failure n now w err d' Hc). reflexivity.
  - rewrite (cordonAndDrain_success n now w d' Hc). reflexivity.
Qed.

Lemma buffer_drainFunc (f : timer) (now : Z) (w : World D) :
  buffer (handler (drainFunc f now w)) = buffer (handler w).
Proof.
  step_through.
  destruct (Drain (fn_n f) (drainer w)) as [[err|] d']; reflexivity.
Qed.

(** No step changes the buffer. *)
Lemma buffer_step (w : World D) (l : label) :
  buffer (handler (step w l)) = buffer (handler w).
Proof.
  destruct l as [n now|i now]; simpl.
  - rewrite handler_cordonAndDrain.
    destruct (Cordon n (drainer w)).1; reflexivity.
  - unfold fire. destruct (timers w !! i) as [f|]; [| reflexivity].
    rewrite buffer_drainFunc. reflexivity.
Qed.

(** One call of [cordonAndDrain] does not move the schedule backwards when
    the buffer is not negative and the delay of a successful cordon fits. *)
Lemma cordonAndDrain_monotone (n : Node) (now : Z) (w : World D) :
  0 <= buffer (handler w) <= GoTime.maxDuration ->
  ((Cordon n (drainer w)).1 = None ->
   lastDrainScheduledFor (handler w) - now + buffer (handler w) <= GoTime.maxDuration) ->
  lastDrainScheduledFor (handler w)
  <= lastDrainScheduledFor (handler (cordonAndDrain n now w)).
Proof.
  intros Hb Hfit. rewrite handler_cordonAndDrain.
  destruct (Cordon n (drainer w)).1 as [err|]; [lia |].
  specialize (Hfit eq_refl).
  destruct (Z.lt_ge_cases (lastDrainScheduledFor (handler w) - now) GoTime.minDuration)
    as [Hlow|Hlow].
  - pose proof (schedule_saturated_below now (handler w) Hlow Hb). lia.
  - rewrite schedule_exact; [lia | |];
      unfold GoTime.isDuration, GoTime.minDuration, GoTime.maxDuration in *; lia.
Qed.

(** A timer that fires resets the schedule to the clock reading. *)
Lemma fire_resets (i : nat) (now : Z) (w : World D) (f : timer) :
  timers w !! i = Some f ->
  lastDrainScheduledFor (handler (fire i now w)) = now.
Proof.
  intros Hf. unfold fire. rewrite Hf.
  step_through.
  destruct (Drain (fn_n f) (drainer w)) as [[err|] d']; reflexivity.
Qed.

(** C1, as the code has it. When the cordon succeeds, [cordonAndDrain] sets
    [lastDrainScheduledFor] to [now + d] with
    [d = (lastDrainScheduledFor - now) + buffer] in [Duration] arithmetic, at
    once: the function for the drain is armed with delay [d] and has not run
    when the call returns. When the difference and the sum fit a [Duration],
    that instant is the previous [lastDrainScheduledFor] plus the buffer; it
    is the later of [now + buffer] and [previous + buffer] when the previous
    schedule is not before [now], and earlier than that when it is. *)
Theorem cordonAndDrain_schedules_after_previous (n : Node) (now : Z)
    (w : World D) (d' : D) :
  Cordon n (drainer w) = (None, d') ->
  let last := lastDrainScheduledFor (handler w) in
  let buf := buffer (handler w) in
  let d := GoTime.addDuration (GoTime.Sub last now) buf in
  let w' := cordonAndDrain n now w in
  lastDrainScheduledFor (handler w') = GoTime.Add now d
  /\ buffer (handler w') = buf
  /\ (exists f, timers w' = (timers w ++ [f])%list /\ delay f = d /\ fn_n f = n)
  /\ drainCalls (trace w') = drainCalls (trace w)
  /\ (GoTime.isDuration (last - now) -> GoTime.isDuration (last - now + buf) ->
      lastDrainScheduledFor (handler w') = last + buf
      /\ (now <= last ->
          lastDrainScheduledFor (handler w') = Z.max (now + buf) (last + buf))
      /\ (last < now ->
          lastDrainScheduledFor (handler w') < Z.max (now + buf) (last + buf))).
Proof.
  intros Hc last buf d w'. subst w'.
  rewrite (cordonAndDrain_success n now w d' Hc). cbn zeta. simpl handler.
  simpl timers. simpl trace.
  split; [reflexivity |]. split; [reflexivity |]. split.
  { eexists. split; [reflexivity |]. split; reflexivity. }
  split.
  { unfold drainCalls. rewrite omap_app. simpl. rewrite app_nil_r. reflexivity. }
  intros Hd Hs.
  assert (Heq : lastDrainScheduledFor (schedule now (handler w)) = last + buf)
    by (apply schedule_exact; assumption).
  rewrite Heq. split; [reflexivity |]. split; lia.
Qed.

(** C4, as the code has it. In every run of [cordonAndDrain] steps and timer
    firings, from a world whose buffer is a non-negative [Duration], no
    [cordonAndDrain] step moves [lastDrainScheduledFor] backwards, provided
    the delay [(lastDrainScheduledFor - now) + buffer] of each successful
    cordon of the run does not exceed the largest [Duration]. *)
Theorem lastDrainScheduledFor_never_decreases_at_cordon (w : World D)
    (ls : list label) :
  0 <= buffer (handler w) <= GoTime.maxDuration ->
  delaysFit w ls ->
  forall (i : nat) (n : Node) (now : Z) (w1 w2 : World D),
    ls !! i = Some (LCordon n now) ->
    states w ls !! i = Some w1 ->
    states w ls !! S i = Some w2 ->
    lastDrainScheduledFor (handler w1) <= lastDrainScheduledFor (handler w2).
Proof.
  revert w. induction ls as [|l rest IH]; intros w Hb Hfit i n now w1 w2 Hl H1 H2.
  - rewrite lookup_nil in Hl. discriminate.
  - destruct Hfit as [Hhere Hrest]. destruct i as [|i]; simpl in Hl, H1, H2.
    + injection Hl as ->. injection H1 as <-.
      destruct rest as [|l' rest']; simpl in H2; injection H2 as <-;
        apply cordonAndDrain_monotone; assumption.
    + apply (IH (step w l)) with (i := i) (n := n) (now := now); try assumption.
      rewrite buffer_step. exact Hb.
Qed.

(** X24. The order of two consecutive schedules. With a buffer of ten minutes,
    of two successful cordons in a row, no timer firing in between, the
    second is scheduled at least ten minutes after the first, provided the
    first schedule is no more than the largest [Duration] less ten minutes
    ahead of the clock reading of the second cordon; exactly ten minutes
    after it unless the difference saturates from below. *)
Theorem consecutive_schedules_ten_minutes_apart (n1 n2 : Node) (now1 now2 : Z)
    (w : World D) (d1 d2 : D) :
  buffer (handler w) = 10 * GoTime.Minute ->
  Cordon n1 (drainer w) = (None, d1) ->
  Cordon n2 d1 = (None, d2) ->
  let w1 := cordonAndDrain n1 now1 w in
  let w2 := cordonAndDrain n2 now2 w1 in
  lastDrainScheduledFor (handler w1) - now2
    <= GoTime.maxDuration - 10 * GoTime.Minute ->
  10 * GoTime.Minute
    <= lastDrainScheduledFor (handler w2) - lastDrainScheduledFor (handler w1)
  /\ (GoTime.minDuration <= lastDrainScheduledFor (handler w1) - now2 ->
      lastDrainScheduledFor (handler w2) - lastDrainScheduledFor (handler w1)
      = 10 * GoTime.Minute).
Proof.
  intros Hbuf Hc1 Hc2 w1 w2 Hfit.
  assert (Hb1 : buffer (handler w1) = 10 * GoTime.Minute).
  { subst w1. rewrite <- Hbuf. apply (buffer_step w (LCordon n1 now1)). }
  assert (Hd1 : drainer w1 = d1).
  { subst w1. rewrite (cordonAndDrain_success n1 now1 w d1 Hc1). reflexivity. }
  assert (Hh2 : handler w2 = schedule now2 (handler w1)).
  { subst w2. rewrite handler_cordonAndDrain, Hd1, Hc2. reflexivity. }
  rewrite Hh2. clearbody w1. clear w2 Hh2.
  assert (Hten : 10 * GoTime.Minute = 600000000000) by reflexivity.
  destruct (Z.lt_ge_cases (lastDrainScheduledFor (handler w1) - now2) GoTime.minDuration)
    as [Hlow|Hlow].
  - split; [| lia].
    pose proof (schedule_saturated_below now2 (handler w1) Hlow) as Hs.
    rewrite Hb1 in Hs. unfold GoTime.maxDuration in *. lia.
  - rewrite schedule_exact; rewrite ?Hb1;
      unfold GoTime.isDuration, GoTime.minDuration, GoTime.maxDuration in *; lia.
Qed.

End HandlerFacts.

Section HandlerOutcomes.

Context {D : Type} {cd : CordonDrainer D}.

(** C6. When [Cordon] returns an error, [cordonAndDrain] returns after
    emitting CordonStarting and a CordonFailed event that carries the error
    and recording one nodes-cordoned measurement tagged failed; it calls
    [Drain] not at all and arms no timer, so no drain is scheduled. The call
    itself returns nothing: no error reaches the caller. *)
Theorem cordon_failure_schedules_no_drain (n : Node) (now : Z) (w : World D)
    (err : string) (d' : D) :
  Cordon n (drainer w) = (Some err, d') ->
  let w' := cordonAndDrain n now w in
  let nr := {| ref_Kind := "Node"; ref_Name := Name n; ref_UID := Name n |} in
  exists new : list effect,
    trace w' = (trace w ++ new)%list
    /\ eventReasons new = [eventReasonCordonStarting; eventReasonCordonFailed]
    /\ Event nr EventTypeWarning eventReasonCordonFailed
         (ErrorF "Cordoning failed: %v" err) ∈ new
    /\ measurements new
       = [ (MeasureNodesCordoned,
            <[TagResult := tagResultFailed]> (<[TagNodeName := Name n]> ∅), 1) ]
    /\ cordonCalls new = [n]
    /\ drainCalls new = []
    /\ (forall d, AfterFunc d ∉ new)
    /\ timers w' = timers w.
Proof.
  intros Hc w' nr. subst w'.
  rewrite (cordonAndDrain_failure n now w err d' Hc). cbn zeta. simpl trace.
  simpl timers. eexists. split; [reflexivity |].
  split; [reflexivity |]. split.
  { do 5 right. left. }
  split; [reflexivity |]. split; [reflexivity |]. split; [reflexivity |].
  split; [| reflexivity].
  intros d Hin. repeat (apply elem_of_cons in Hin as [Hin|Hin]; [discriminate |]).
  inversion Hin.
Qed.

(** C10. When [Cordon] returns an error, [cordonAndDrain] leaves both
    [lastDrainScheduledFor] and [buffer] as they were. *)
Theorem cordon_failure_keeps_pacing (n : Node) (now : Z) (w : World D)
    (err : string) (d' : D) :
  Cordon n (drainer w) = (Some err, d') ->
  lastDrainScheduledFor (handler (cordonAndDrain n now w))
    = lastDrainScheduledFor (handler w)
  /\ buffer (handler (cordonAndDrain n now w)) = buffer (handler w)
  /\ timers (cordonAndDrain n now w) = timers w.
Proof.
  intros Hc. rewrite (cordonAndDrain_failure n now w err d' Hc).
  split; [reflexivity |]. split; reflexivity.
Qed.

(** C8. With a buffer of one second, a cordon that succeeds and a drain that
    succeeds, handling one node emits CordonStarting, CordonSucceeded and
    DrainScheduled and arms one timer; when that timer fires, DrainStarting
    and DrainSucceeded follow. Each of the two measures is recorded once,
    with value 1 and result succeeded, and each capability is called once. *)
Theorem cordon_then_drain_events (n : Node) (now1 now2 : Z) (w : World D)
    (d1 d2 : D) :
  buffer (handler w) = GoTime.Second ->
  Cordon n (drainer w) = (None, d1) ->
  Drain n d1 = (None, d2) ->
  let w1 := cordonAndDrain n now1 w in
  let w2 := fire (length (timers w)) now2 w1 in
  let tags : gmap string string :=
    <[TagResult := tagResultSucceeded]> (<[TagNodeName := Name n]> ∅) in
  exists (new1 new2 : list effect) (f : timer),
    trace w1 = (trace w ++ new1)%list
    /\ trace w2 = (trace w1 ++ new2)%list
    /\ eventReasons new1
       = [eventReasonCordonStarting; eventReasonCordonSucceeded;
          eventReasonDrainScheduled]
    /\ eventReasons new2 = [eventReasonDrainStarting; eventReasonDrainSucceeded]
    /\ measurements (new1 ++ new2)
       = [ (MeasureNodesCordoned, tags, 1); (MeasureNodesDrained, tags, 1) ]
    /\ cordonCalls (new1 ++ new2) = [n]
    /\ drainCalls new1 = [] /\ drainCalls new2 = [n]
    /\ timers w1 = (timers w ++ [f])%list
    /\ delay f
       = GoTime.addDuration
           (GoTime.Sub (lastDrainScheduledFor (handler w)) now1) GoTime.Second
    /\ timers w2 = timers w.
Proof.
  intros Hbuf Hc Hd w1 w2 tags.
  assert (Hw1 := cordonAndDrain_success n now1 w d1 Hc). cbn zeta in Hw1.
  fold w1 in Hw1.
  set (f := {| delay := GoTime.addDuration
                          (GoTime.Sub (lastDrainScheduledFor (handler w)) now1)
                          (buffer (handler w));
               fn_n := n;
               fn_nr := {| ref_Kind := "Node"; ref_Name := Name n; ref_UID := Name n |};
               fn_tags := tags |}) in *.
  assert (Ht1 : timers w1 = (timers w ++ [f])%list) by (rewrite Hw1; reflexivity).
  assert (Hw2 : w2 = drainFunc f now2
                       {| handler := handler w1; drainer := drainer w1;
                          trace := trace w1; timers := timers w |}).
  { subst w2. unfold fire. rewrite Ht1.
    rewrite list_lookup_middle by reflexivity.
    rewrite take_app_length.
    rewrite drop_ge by (rewrite length_app; simpl; lia).
    rewrite app_nil_r. reflexivity. }
  rewrite (drainFunc_success f now2 _ d2) in Hw2
    by (simpl; rewrite Hw1; simpl; exact Hd).
  simpl in Hw2.
  eexists _, _, f.
  split; [rewrite Hw1; reflexivity |].
  split; [rewrite Hw2; reflexivity |].
  split; [reflexivity |]. split; [reflexivity |]. split.
  { simpl. unfold tags. rewrite insert_insert_eq. reflexivity. }
  split; [reflexivity |]. split; [reflexivity |]. split; [reflexivity |].
  split; [exact Ht1 |]. split; [simpl; rewrite Hbuf; reflexivity |].
  rewrite Hw2. reflexivity.
Qed.

(** X23. Along runs: a node whose cordon always fails is
    never handed to [Drain] and never has a timer armed, whatever else the
    handler does in between. *)
Lemma failed_cordon_never_drained (n : Node) (ls : list label) :
  (forall d, (Cordon n d).1 <> None) ->
  forall w : World D,
    n ∉ map fn_n (timers w) ->
    n ∉ drainCalls (trace w) ->
    (n ∉ map fn_n (timers (run w ls))) /\ (n ∉ drainCalls (trace (run w ls))).
Proof.
  intros Hfail. induction ls as [|l rest IH]; intros w Ht Hd; [split; assumption |].
  simpl. apply IH.
  - destruct l as [m now|i now]; simpl.
    + destruct (Cordon m (drainer w)) as [[err|] d'] eqn:Hc.
      * rewrite (cordonAndDrain_failure m now w err d' Hc). exact Ht.
      * rewrite (cordonAndDrain_success m now w d' Hc). simpl.
        rewrite map_app. simpl. intros Hin.
        apply elem_of_app in Hin as [Hin|Hin]; [exact (Ht Hin) |].
        apply list_elem_of_singleton in Hin. subst m.
        apply (Hfail (drainer w)). rewrite Hc. reflexivity.
    + unfold fire. destruct (timers w !! i) as [f|] eqn:Hf; [| exact Ht].
      assert (Hsub : n ∉ map fn_n (take i (timers w) ++ drop (S i) (timers w))).
      { intros Hin. apply Ht. rewrite map_app in Hin.
        apply elem_of_app in Hin as [Hin|Hin].
        - rewrite <- (take_drop i (timers w)), map_app. apply elem_of_app. left. exact Hin.
        - rewrite <- (take_drop (S i) (timers w)), map_app. apply elem_of_app. right. exact Hin. }
      step_through.
      destruct (Drain (fn_n f) (drainer w)) as [[err|] d']; exact Hsub.
  - destruct l as [m now|i now]; simpl.
    + destruct (Cordon m (drainer w)) as [[err|] d'] eqn:Hc.
      * rewrite (cordonAndDrain_failure m now w err d' Hc). simpl.
        unfold drainCalls. rewrite omap_app. simpl. rewrite app_nil_r. exact Hd.
      * rewrite (cordonAndDrain_success m now w d' Hc). simpl.
        unfold drainCalls. rewrite omap_app. simpl. rewrite app_nil_r. exact Hd.
    + unfold fire. destruct (timers w !! i) as [f|] eqn:Hf; [| exact Hd].
      assert (Hne : fn_n f <> n).
      { intros <-. apply Ht. apply list_elem_of_fmap. exists f.
        split; [reflexivity |]. apply list_elem_of_lookup. exists i. exact Hf. }
      destruct (Drain (fn_n f) (drainer w)) as [[err|] d'] eqn:Hdr.
      * step_through.
        rewrite Hdr. simpl. unfold drainCalls. rewrite <- !app_assoc, omap_app. simpl.
        intros Hin. apply elem_of_app in Hin as [Hin|Hin]; [exact (Hd Hin) |].
        apply list_elem_of_singleton in Hin. congruence.
      * step_through.
        rewrite Hdr. simpl. unfold drainCalls. rewrite <- !app_assoc, omap_app. simpl.
        intros Hin. apply elem_of_app in Hin as [Hin|Hin]; [exact (Hd Hin) |].
        apply list_elem_of_singleton in Hin. congruence.
Qed.

End HandlerOutcomes.

(** ** The handler on concrete worlds *)

Lemma cordonAndDrain_schedules_after_previous_witness :
  Cordon exampleNode (drainer defaultWorld) = (None, tt)
  /\ lastDrainScheduledFor (handler (cordonAndDrain exampleNode 5 defaultWorld))
     = GoTime.Add 5 (GoTime.addDuration (GoTime.Sub 0 5) DefaultDrainBuffer).
Proof.
  split; [reflexivity |].
  exact (proj1 (cordonAndDrain_schedules_after_previous
                  exampleNode 5 defaultWorld tt eq_refl)).
Defined.

(** C1 as stated fails when the previous schedule lies in the past: a handler
    created at instant 0 with the default buffer that cordons its first node
    an hour later schedules the drain for minute 10, not for the later of
    [now + buffer] and [previous + buffer], which is minute 70. *)
Lemma cordonAndDrain_not_the_later_of :
  let now := GoTime.Hour in
  let previous := lastDrainScheduledFor (handler defaultWorld) in
  let buf := buffer (handler defaultWorld) in
  Cordon exampleNode (drainer defaultWorld) = (None, tt)
  /\ lastDrainScheduledFor (handler (cordonAndDrain exampleNode now defaultWorld))
     = 10 * GoTime.Minute
  /\ Z.max (now + buf) (previous + buf) = 70 * GoTime.Minute
  /\ lastDrainScheduledFor (handler (cordonAndDrain exampleNode now defaultWorld))
     <> Z.max (now + buf) (previous + buf).
Proof.
  split; [reflexivity |]. split; [reflexivity |]. split; [reflexivity |].
  vm_compute. discriminate.
Qed.

Lemma lastDrainScheduledFor_never_decreases_at_cordon_witness :
  lastDrainScheduledFor (handler (cordonAndDrain exampleNode 5 defaultWorld))
  <= lastDrainScheduledFor
       (handler (cordonAndDrain exampleNode 6
                   (cordonAndDrain exampleNode 5 defaultWorld))).
Proof.
  apply (lastDrainScheduledFor_never_decreases_at_cordon defaultWorld
           [LCordon exampleNode 5; LCordon exampleNode 6])
    with (i := 1%nat) (n := exampleNode) (now := 6).
  - vm_compute. split; discriminate.
  - simpl. split; [intros _; vm_compute; discriminate |].
    split; [intros _; vm_compute; discriminate | exact I].
  - reflexivity.
  - reflexivity.
  - reflexivity.
Defined.

(** C4 as stated fails when the delay overflows: with the largest buffer, a
    non-negative one, the second of two cordons computes
    [(lastDrainScheduledFor - now) + buffer] beyond the largest [Duration];
    the sum wraps around and the schedule moves back, with no timer firing. *)
Lemma lastDrainScheduledFor_decreases_on_overflow :
  let l1 := LCordon exampleNode GoTime.Second in
  let l2 := LCordon exampleNode (2 * GoTime.Second) in
  let w1 := step maxBufferWorld l1 in
  let w2 := step w1 l2 in
  0 <= buffer (handler maxBufferWorld)
  /\ states maxBufferWorld [l1; l2] = [maxBufferWorld; w1; w2]
  /\ lastDrainScheduledFor (handler w1) = GoTime.maxDuration
  /\ lastDrainScheduledFor (handler w2) = - 2
  /\ lastDrainScheduledFor (handler w2) < lastDrainScheduledFor (handler w1).
Proof.
  split; [vm_compute; discriminate |]. split; [reflexivity |].
  split; [reflexivity |]. split; reflexivity.
Qed.

Lemma consecutive_schedules_ten_minutes_apart_witness :
  10 * GoTime.Minute
    <= lastDrainScheduledFor
         (handler (cordonAndDrain exampleNode GoTime.Second
                     (cordonAndDrain exampleNode 0 defaultWorld)))
       - lastDrainScheduledFor (handler (cordonAndDrain exampleNode 0 defaultWorld)).
Proof.
  refine (proj1 (consecutive_schedules_ten_minutes_apart
                   exampleNode exampleNode 0 GoTime.Second defaultWorld tt tt
                   eq_refl eq_refl eq_refl _)).
  vm_compute. discriminate.
Defined.

(** With a drainer that always succeeds, a cordon is the schedule step on the
    handler. *)
Lemma handler_cordon_alwaysSucceeds (n : Node) (now : Z) (w : World unit) :
  handler (cordonAndDrain n now w) = schedule now (handler w).
Proof. rewrite handler_cordonAndDrain. reflexivity. Qed.

Lemma handler_iter_cordon (n : Node) (now : Z) (w : World unit) (k : N) :
  handler (N.iter k (cordonAndDrain n now) w) = N.iter k (schedule now) (handler w).
Proof.
  induction k as [|k IH] using N.peano_ind; [reflexivity |].
  rewrite !N.iter_succ, handler_cordon_alwaysSucceeds, IH. reflexivity.
Qed.

(** [k] schedule steps at one clock reading add [k] buffers, as long as the
    schedule stays within reach of a [Duration]. *)
Lemma schedule_iter (now : Z) (h : DrainingResourceEventHandler) (k : N) :
  0 <= buffer h ->
  GoTime.minDuration <= lastDrainScheduledFor h - now ->
  lastDrainScheduledFor h - now + Z.of_N k * buffer h <= GoTime.maxDuration ->
  N.iter k (schedule now) h
  = {| lastDrainScheduledFor := lastDrainScheduledFor h + Z.of_N k * buffer h;
       buffer := buffer h |}.
Proof.
  intros Hb Hlo. induction k as [|k IH] using N.peano_ind; intros Hhi.
  - simpl. destruct h as [l b]. simpl. f_equal. lia.
  - rewrite N.iter_succ, IH by nia.
    unfold schedule, GoTime.Add, GoTime.addDuration. simpl. f_equal.
    rewrite Sub_exact, int64_id;
      unfold GoTime.isDuration, GoTime.minDuration, GoTime.maxDuration in *; nia.
Qed.

(** Without that proviso the order can turn around: after 15372285
    successful cordons at one instant, on a handler with the buffer of ten
    minutes, the schedule stands 15372285 buffers ahead; the next cordon
    still adds ten minutes, and the one after it, a second later, overflows
    the delay and computes a drain time before the previous one. *)
Lemma consecutive_schedules_overflow :
  let w := N.iter 15372285 (cordonAndDrain exampleNode 0) defaultWorld in
  let w1 := cordonAndDrain exampleNode 0 w in
  let w2 := cordonAndDrain exampleNode GoTime.Second w1 in
  buffer (handler w) = 10 * GoTime.Minute
  /\ (Cordon exampleNode (drainer w)).1 = None
  /\ (Cordon exampleNode (drainer w1)).1 = None
  /\ lastDrainScheduledFor (handler w2) - lastDrainScheduledFor (handler w1)
     < 10 * GoTime.Minute.
Proof.
  intros w w1 w2.
  assert (Hw : handler w
               = {| lastDrainScheduledFor := 15372285 * (10 * GoTime.Minute);
                    buffer := 10 * GoTime.Minute |}).
  { unfold w. rewrite handler_iter_cordon.
    rewrite schedule_iter; [reflexivity | | |]; vm_compute; discriminate. }
  split; [rewrite Hw; reflexivity |].
  split; [reflexivity |]. split; [reflexivity |].
  unfold w2, w1. rewrite !handler_cordon_alwaysSucceeds, Hw.
  vm_compute. reflexivity.
Qed.

(** The same overflow on the handler fields alone. *)
Lemma schedule_overflow :
  let h := {| lastDrainScheduledFor := 15372285 * (10 * GoTime.Minute);
              buffer := 10 * GoTime.Minute |} in
  lastDrainScheduledFor (schedule 0 h) = 9223371600000000000
  /\ lastDrainScheduledFor (schedule GoTime.Second (schedule 0 h))
     = - 9223371873709551616.
Proof. split; reflexivity. Qed.

Lemma cordon_failure_schedules_no_drain_witness :
  let w := freshWorld (NewDrainingResourceEventHandler 0 []) tt in
  let w' := cordonAndDrain (cd := alwaysFails) exampleNode 5 w in
  exists new : list effect,
    trace w' = (trace w ++ new)%list
    /\ eventReasons new = [eventReasonCordonStarting; eventReasonCordonFailed]
    /\ Event {| ref_Kind := "Node"; ref_Name := "n1"; ref_UID := "n1" |}
         EventTypeWarning eventReasonCordonFailed
         (ErrorF "Cordoning failed: %v" "boom") ∈ new
    /\ measurements new
       = [ (MeasureNodesCordoned,
            <[TagResult := tagResultFailed]> (<[TagNodeName := "n1"]> ∅), 1) ]
    /\ cordonCalls new = [exampleNode]
    /\ drainCalls new = []
    /\ (forall d, AfterFunc d ∉ new)
    /\ timers w' = timers w.
Proof.
  exact (cordon_failure_schedules_no_drain (cd := alwaysFails) exampleNode 5
           (freshWorld (NewDrainingResourceEventHandler 0 []) tt) "boom" tt eq_refl).
Defined.

Lemma cordon_failure_keeps_pacing_witness :
  let w := freshWorld (NewDrainingResourceEventHandler 0 []) tt in
  lastDrainScheduledFor (handler (cordonAndDrain (cd := alwaysFails) exampleNode 5 w)) = 0
  /\ buffer (handler (cordonAndDrain (cd := alwaysFails) exampleNode 5 w))
     = DefaultDrainBuffer
  /\ timers (cordonAndDrain (cd := alwaysFails) exampleNode 5 w) = [].
Proof.
  exact (cordon_failure_keeps_pacing (cd := alwaysFails) exampleNode 5
           (freshWorld (NewDrainingResourceEventHandler 0 []) tt) "boom" tt eq_refl).
Defined.

Lemma cordon_then_drain_events_witness :
  let w1 := cordonAndDrain exampleNode 5 oneSecondWorld in
  let w2 := fire 0 (GoTime.Second + 5) w1 in
  let tags : gmap string string :=
    <[TagResult := tagResultSucceeded]> (<[TagNodeName := "n1"]> ∅) in
  exists (new1 new2 : list effect) (f : timer),
    trace w1 = (trace oneSecondWorld ++ new1)%list
    /\ trace w2 = (trace w1 ++ new2)%list
    /\ eventReasons new1
       = [eventReasonCordonStarting; eventReasonCordonSucceeded;
          eventReasonDrainScheduled]
    /\ eventReasons new2 = [eventReasonDrainStarting; eventReasonDrainSucceeded]
    /\ measurements (new1 ++ new2)
       = [ (MeasureNodesCordoned, tags, 1); (MeasureNodesDrained, tags, 1) ]
    /\ cordonCalls (new1 ++ new2) = [exampleNode]
    /\ drainCalls new1 = [] /\ drainCalls new2 = [exampleNode]
    /\ timers w1 = (timers oneSecondWorld ++ [f])%list
    /\ delay f = GoTime.addDuration (GoTime.Sub 0 5) GoTime.Second
    /\ timers w2 = timers oneSecondWorld.
Proof.
  exact (cordon_then_drain_events exampleNode 5 (GoTime.Second + 5)
           oneSecondWorld tt tt eq_refl eq_refl eq_refl).
Defined.

(** ** More on ParseConditions *)

Lemma cut_app (sep : ascii) (before after : string) :
  ~ hasByte sep before ->
  GoStrings.cut sep (before ++ String sep after) = Some (before, after).
Proof.
  unfold hasByte. induction before as [|c rest IH]; simpl; intros Hno.
  - rewrite Ascii.eqb_refl. reflexivity.
  - destruct (Ascii.eqb_spec c sep) as [->|Hne]; [exfalso; apply Hno; left; reflexivity |].
    rewrite IH; [reflexivity |]. intros Hin. apply Hno. right. exact Hin.
Qed.

Lemma cut_None (sep : ascii) (s : string) :
  GoStrings.cut sep s = None <-> ~ hasByte sep s.
Proof.
  unfold hasByte. induction s as [|c rest IH]; simpl.
  - split; [intros _ [] | reflexivity].
  - destruct (Ascii.eqb_spec c sep) as [->|Hne].
    + split; [discriminate | intros Hno; exfalso; apply Hno; left; reflexivity].
    + destruct (GoStrings.cut sep rest) as [[b a]|].
      * split; [discriminate |]. intros Hno. exfalso.
        destruct IH as [_ IH]. assert (Hn : ~ In sep (list_ascii_of_string rest))
          by (intros Hin; apply Hno; right; exact Hin).
        specialize (IH Hn). discriminate.
      * split; [| reflexivity]. intros _ [Heq|Hin]; [exact (Hne Heq) |].
        destruct IH as [IH _]. exact (IH eq_refl Hin).
Qed.

Lemma cut_Some (sep : ascii) (s before after : string) :
  GoStrings.cut sep s = Some (before, after)
  <-> s = before ++ String sep after /\ ~ hasByte sep before.
Proof.
  split.
  - revert before. unfold hasByte.
    induction s as [|c rest IH]; simpl; intros before Hcut; [discriminate |].
    destruct (Ascii.eqb_spec c sep) as [->|Hne].
    + injection Hcut as <- <-. split; [reflexivity | intros []].
    + destruct (GoStrings.cut sep rest) as [[b a]|]; [| discriminate].
      injection Hcut as <- <-. destruct (IH b eq_refl) as [-> Hno].
      split; [reflexivity |]. simpl. intros [Heq|Hin]; [exact (Hne Heq) | exact (Hno Hin)].
  - intros [-> Hno]. apply cut_app. exact Hno.
Qed.

Section ParseConditionsFacts.

Variable fracNanos : N -> N -> nat -> N.

(** The shorthand [TYPE], an entry without an equals sign. *)
Lemma parseCondition_shorthand (c : string) :
  GoStrings.cut "="%char c = None ->
  parseCondition fracNanos c
  = Ok (Some {| Type_ := c; Status := "True"; MinimumDuration := 0 |}).
Proof.
  intros Hc. unfold parseCondition, GoStrings.SplitN2. rewrite Hc. reflexivity.
Qed.

(** The full form [TYPE=STATUS,DURATION]. *)
Lemma parseCondition_full (c ty rest st ds : string) :
  GoStrings.cut "="%char c = Some (ty, rest) ->
  GoStrings.cut ","%char rest = Some (st, ds) ->
  parseCondition fracNanos c
  = Ok match GoTime.ParseDuration fracNanos ds with
       | Some d => Some {| Type_ := ty; Status := st; MinimumDuration := d |}
       | None => None
       end.
Proof.
  intros Hc Hr. unfold parseCondition, GoStrings.SplitN2. rewrite Hc. simpl.
  rewrite Hr. simpl. destruct (GoTime.ParseDuration fracNanos ds); reflexivity.
Qed.

(** A round panics exactly on an entry with an equals sign and no comma after
    the first one, and then with the index error. *)
Lemma parseCondition_panic (c msg : string) :
  parseCondition fracNanos c = Panic msg
  <-> msg = "index out of range" /\ missingComma c.
Proof.
  unfold missingComma.
  destruct (GoStrings.cut "="%char c) as [[ty rest]|] eqn:Hc.
  - destruct (GoStrings.cut ","%char rest) as [[st ds]|] eqn:Hr.
    + rewrite (parseCondition_full c ty rest st ds Hc Hr).
      split; [discriminate |]. intros [_ [ty' [rest' [Heq [Hty Hrest]]]]].
      assert (Hc' : GoStrings.cut "="%char c = Some (ty', rest'))
        by (apply cut_Some; auto).
      rewrite Hc in Hc'. injection Hc' as <- <-.
      apply cut_None in Hrest. congruence.
    + rewrite (parseCondition_no_comma fracNanos c ty rest Hc Hr). split.
      * intros [= <-]. split; [reflexivity |]. exists ty, rest.
        apply cut_Some in Hc as [-> Hty]. apply cut_None in Hr. auto.
      * intros [-> _]. reflexivity.
  - rewrite (parseCondition_shorthand c Hc). split; [discriminate |].
    intros [_ [ty [rest [Heq [Hty _]]]]].
    assert (Hc' : GoStrings.cut "="%char c = Some (ty, rest)) by (apply cut_Some; auto).
    congruence.
Qed.

Lemma parseLoop_panic (conditions : list string) :
  forall (i : nat) (parsed : list SuppliedCondition) (msg : string),
    parseLoop fracNanos i conditions parsed = Panic msg
    <-> msg = "index out of range" /\ Exists missingComma conditions.
Proof.
  induction conditions as [|c rest IH]; intros i parsed msg; simpl.
  - split; [discriminate | intros [_ Hex]; inversion Hex].
  - destruct (parseCondition fracNanos c) as [r|msg'] eqn:Hc; simpl.
    + rewrite IH. split; intros [Hmsg Hex]; (split; [exact Hmsg |]).
      * right. exact Hex.
      * inversion Hex as [? ? Hm|? ? Hm]; subst; [| exact Hm].
        assert (Hp : parseCondition fracNanos c = Panic "index out of range")
          by (apply parseCondition_panic; auto).
        congruence.
    + apply parseCondition_panic in Hc as [-> Hm]. split.
      * intros [= <-]. split; [reflexivity | left; exact Hm].
      * intros [-> _]. reflexivity.
Qed.

(** X2. [ParseConditions] panics, with an index out of range, exactly when some
    entry has an equals sign and no comma after the first one; on every other
    list it returns. *)
Theorem ParseConditions_panics_iff (conditions : list string) :
  (ParseConditions fracNanos conditions = Panic "index out of range"
     <-> Exists missingComma conditions)
  /\ ((exists pc, ParseConditions fracNanos conditions = Ok pc)
      <-> ~ Exists missingComma conditions).
Proof.
  unfold ParseConditions.
  pose proof (parseLoop_panic conditions 0
                (replicate (length conditions) zeroSuppliedCondition)) as Hp.
  split.
  - rewrite Hp. split; [intros [_ Hex]; exact Hex | intros Hex; split; [reflexivity | exact Hex]].
  - destruct (parseLoop fracNanos 0 conditions
                (replicate (length conditions) zeroSuppliedCondition)) as [pc|msg] eqn:E.
    + split; [| intros _; exists pc; reflexivity].
      intros _ Hex.
      assert (Habs : @Ok (list SuppliedCondition) pc = Panic "index out of range")
        by (apply Hp; auto).
      discriminate.
    + split; [intros [pc Hpc]; discriminate |].
      intros Hno. exfalso. apply Hno. apply (Hp msg). reflexivity.
Qed.

Lemma parseLoop_pointwise (conditions : list string) :
  forall (i : nat) (parsed pc : list SuppliedCondition),
    parseLoop fracNanos i conditions parsed = Ok pc ->
    (i + length conditions <= length parsed)%nat ->
    (forall j, (i <= j)%nat -> (j < length parsed)%nat ->
               parsed !! j = Some zeroSuppliedCondition) ->
    (forall j, (j < i)%nat -> pc !! j = parsed !! j)
    /\ (forall j c, conditions !! j = Some c ->
        exists r, parseCondition fracNanos c = Ok r
                  /\ pc !! (i + j)%nat = Some (entryOf r)).
Proof.
  induction conditions as [|c rest IH]; intros i parsed pc Hp Hlen Hzero; simpl in Hp.
  - injection Hp as <-. split; [reflexivity |]. intros j c Hj.
    rewrite lookup_nil in Hj. discriminate.
  - destruct (parseCondition fracNanos c) as [r|msg] eqn:Hc; simpl in Hp; [| discriminate].
    simpl in Hlen.
    set (parsed' := match r with
                    | Some sc => <[i := sc]> parsed
                    | None => parsed
                    end) in *.
    assert (Hlen' : length parsed' = length parsed)
      by (unfold parsed'; destruct r; [apply length_insert | reflexivity]).
    assert (Hi : parsed' !! i = Some (entryOf r)).
    { unfold parsed'. destruct r as [sc|]; simpl.
      - apply list_lookup_insert_eq. lia.
      - apply Hzero; lia. }
    assert (Hother : forall j, j <> i -> parsed' !! j = parsed !! j).
    { intros j Hne. unfold parsed'. destruct r; [| reflexivity].
      apply list_lookup_insert_ne. congruence. }
    destruct (IH (S i) parsed' pc Hp) as [Hbelow Hat].
    + lia.
    + intros j Hj Hlt. rewrite Hother by lia. apply Hzero; lia.
    + split.
      * intros j Hj. rewrite Hbelow by lia. apply Hother. lia.
      * intros [|j] c' Hj; simpl in Hj.
        -- injection Hj as <-. exists r. split; [exact Hc |].
           rewrite Nat.add_0_r, Hbelow by lia. exact Hi.
        -- destruct (Hat j c' Hj) as [r' [Hr' Hpc]]. exists r'.
           split; [exact Hr' |]. rewrite <- Hpc. f_equal. lia.
Qed.

(** When [ParseConditions] returns, every entry of the result is decided by
    the input string at the same index alone: it is the spec parsed from that
    string, or the zero value when its duration did not parse. *)
Theorem ParseConditions_pointwise (conditions : list string)
    (pc : list SuppliedCondition) (j : nat) (c : string) :
  ParseConditions fracNanos conditions = Ok pc ->
  conditions !! j = Some c ->
  exists r, parseCondition fracNanos c = Ok r /\ pc !! j = Some (entryOf r).
Proof.
  unfold ParseConditions. intros Hp Hj.
  destruct (parseLoop_pointwise conditions 0 _ pc Hp) as [_ Hat].
  - rewrite length_replicate. lia.
  - intros k _ Hk. rewrite length_replicate in Hk.
    apply lookup_replicate_2. exact Hk.
  - exact (Hat j c Hj).
Qed.

(** X3. The shorthand: wherever it stands in a list that parses, an entry without
    an equals sign becomes the spec with that entry as its type, the status
    [True] and no minimum duration. *)
Theorem ParseConditions_shorthand (conditions : list string)
    (pc : list SuppliedCondition) (j : nat) (c : string) :
  ParseConditions fracNanos conditions = Ok pc ->
  conditions !! j = Some c ->
  ~ hasByte "="%char c ->
  pc !! j = Some {| Type_ := c; Status := "True"; MinimumDuration := 0 |}.
Proof.
  intros Hp Hj Hno. unfold ParseConditions in Hp.
  destruct (parseLoop_pointwise conditions 0 _ pc Hp) as [_ Hat].
  - rewrite length_replicate. lia.
  - intros k _ Hk. rewrite length_replicate in Hk.
    apply lookup_replicate_2. exact Hk.
  - destruct (Hat j c Hj) as [r [Hr Hpc]].
    rewrite parseCondition_shorthand in Hr by (apply cut_None; exact Hno).
    injection Hr as <-. exact Hpc.
Qed.

(** X4. The full form: an entry [TYPE=STATUS,DURATION], with no equals sign in
    [TYPE] and no comma in [STATUS], becomes the spec (TYPE, STATUS, d) when
    [time.ParseDuration] reads [DURATION] as [d], and stays the zero value
    when [time.ParseDuration] rejects it. *)
Theorem ParseConditions_full_form (conditions : list string)
    (pc : list SuppliedCondition) (j : nat) (ty st ds : string) :
  ParseConditions fracNanos conditions = Ok pc ->
  conditions !! j = Some (ty ++ String "="%char (st ++ String ","%char ds)) ->
  ~ hasByte "="%char ty ->
  ~ hasByte ","%char st ->
  pc !! j
  = Some match GoTime.ParseDuration fracNanos ds with
         | Some d => {| Type_ := ty; Status := st; MinimumDuration := d |}
         | None => zeroSuppliedCondition
         end.
Proof.
  intros Hp Hj Hty Hst. unfold ParseConditions in Hp.
  destruct (parseLoop_pointwise conditions 0 _ pc Hp) as [_ Hat].
  - rewrite length_replicate. lia.
  - intros k _ Hk. rewrite length_replicate in Hk.
    apply lookup_replicate_2. exact Hk.
  - destruct (Hat j _ Hj) as [r [Hr Hpc]].
    rewrite (parseCondition_full _ ty (st ++ String ","%char ds) st ds) in Hr
      by (apply cut_app; assumption).
    injection Hr as <-. simpl in Hpc. rewrite Hpc.
    destruct (GoTime.ParseDuration fracNanos ds); reflexivity.
Qed.

End ParseConditionsFacts.

(** ** More on the label filter *)

(** X5. Whatever order [range] visits the required labels in, the loop gives the
    answer of the filter. *)
Theorem NewNodeLabelFilter_any_order (labels : gmap string string)
    (entries : list (string * string)) (n : Node) :
  entries ≡ₚ map_to_list labels ->
  labelLoop entries n = NewNodeLabelFilter labels (ONode n).
Proof.
  intros Hp. unfold NewNodeLabelFilter; simpl.
  apply eq_true_iff_eq. rewrite !labelLoop_true.
  split; intros Hall k v Hin; apply Hall; [rewrite Hp | rewrite <- Hp]; exact Hin.
Qed.

Lemma NewNodeLabelFilter_any_order_witness :
  labelLoop (reverse (map_to_list ({[ "role" := "worker"; "zone" := "a" ]}
                                     : gmap string string)))
    exampleNode
  = NewNodeLabelFilter {[ "role" := "worker"; "zone" := "a" ]} (ONode exampleNode).
Proof.
  apply NewNodeLabelFilter_any_order. apply reverse_Permutation.
Defined.

(** X6. Requiring two disjoint sets of labels together is requiring each of
    them. *)
Theorem NewNodeLabelFilter_union (l1 l2 : gmap string string) (o : object) :
  l1 ##ₘ l2 ->
  NewNodeLabelFilter (l1 ∪ l2) o
  = NewNodeLabelFilter l1 o && NewNodeLabelFilter l2 o.
Proof.
  intros Hdisj. destruct o as [n|]; [| reflexivity].
  unfold NewNodeLabelFilter; simpl. apply eq_true_iff_eq.
  rewrite andb_true_iff, !labelLoop_true. split.
  - intros Hall. split; intros k v Hin; apply Hall;
      apply elem_of_map_to_list; apply elem_of_map_to_list in Hin;
      apply lookup_union_Some; auto.
  - intros [H1 H2] k v Hin. apply elem_of_map_to_list in Hin.
    apply lookup_union_Some in Hin as [Hin|Hin]; [| | exact Hdisj];
      [apply H1 | apply H2]; apply elem_of_map_to_list; exact Hin.
Qed.

Lemma NewNodeLabelFilter_union_witness :
  NewNodeLabelFilter ({[ "role" := "worker" ]} ∪ {[ "zone" := "a" ]})
    (ONode exampleNode)
  = NewNodeLabelFilter {[ "role" := "worker" ]} (ONode exampleNode)
    && NewNodeLabelFilter {[ "zone" := "a" ]} (ONode exampleNode).
Proof.
  apply NewNodeLabelFilter_union.
  apply map_disjoint_singleton_l. apply lookup_singleton_ne. discriminate.
Defined.

(** ** More on the processed filter *)

Lemma processedIndex_true (p : gmap string bool) (uid : string) :
  processedIndex p uid = true <-> p !! uid = Some true.
Proof.
  unfold processedIndex. destruct (p !! uid) as [[|]|]; simpl;
    split; congruence.
Qed.

(** One call keeps all marks true, adds the node's identifier to the keys and
    enlarges the map by one exactly when it answers true. *)
Lemma Filter_allTrue (p : gmap string bool) (o : object) :
  allTrue p ->
  allTrue (Filter p o).2
  /\ size (Filter p o).2 = (size p + (if (Filter p o).1 then 1 else 0))%nat
  /\ dom (Filter p o).2 = dom p ∪ list_to_set (nodeUIDs [o]).
Proof.
  intros Hall. unfold Filter, nodeUIDs. destruct o as [n|]; simpl.
  - destruct (processedIndex p (UID n)) eqn:E; simpl.
    + apply processedIndex_true in E.
      split; [exact Hall |]. split; [lia |].
      assert (Hin : UID n ∈ dom p) by (apply elem_of_dom; eauto).
      rewrite (right_id_L ∅ (∪)). symmetry. rewrite (comm_L (∪)).
      apply subseteq_union_1_L. apply singleton_subseteq_l. exact Hin.
    + assert (Hnone : p !! UID n = None).
      { destruct (p !! UID n) as [v|] eqn:Hl; [| reflexivity].
        rewrite (Hall _ _ Hl) in Hl. apply processedIndex_true in Hl. congruence. }
      split; [| split].
      * intros uid v Hl. apply lookup_insert_Some in Hl as [[_ <-]|[_ Hl]];
          [reflexivity | exact (Hall _ _ Hl)].
      * rewrite map_size_insert_None by exact Hnone. lia.
      * rewrite dom_insert_L, (right_id_L ∅ (∪)). apply (comm_L (∪)).
  - split; [exact Hall |]. split; [lia |]. symmetry. apply (right_id_L ∅ (∪)).
Qed.

Lemma filterCalls_allTrue (os : list object) :
  forall p : gmap string bool,
    allTrue p ->
    allTrue (filterCalls p os).2
    /\ size (filterCalls p os).2 = (size p + countTrue (filterCalls p os).1)%nat
    /\ dom (filterCalls p os).2 = dom p ∪ list_to_set (nodeUIDs os).
Proof.
  induction os as [|o rest IH]; intros p Hall.
  - simpl. split; [exact Hall |]. split; [lia |]. symmetry. apply (right_id_L ∅ (∪)).
  - destruct (Filter_allTrue p o Hall) as [Hall' [Hsize Hdom]].
    destruct (IH (Filter p o).2 Hall') as [Hall'' [Hsize' Hdom']].
    simpl. destruct (Filter p o) as [b p'] eqn:Hf. simpl in *.
    destruct (filterCalls p' rest) as [bs final] eqn:Hfc. simpl in *.
    split; [exact Hall'' |]. split; [lia |].
    rewrite Hdom', Hdom. unfold nodeUIDs. simpl.
    destruct (asNode o) as [n|]; simpl.
    + rewrite (right_id_L ∅ (∪)), (assoc_L (∪)). reflexivity.
    + rewrite (right_id_L ∅ (∪)). reflexivity.
Qed.

(** X7. Over any sequence of calls on a fresh map, the map ends up holding
    exactly the identifiers of the nodes that were offered, each marked true,
    and the number of true answers is the number of distinct identifiers. *)
Theorem Filter_passes_each_identifier_once (os : list object) :
  dom (filterCalls NewNodeProcessed os).2 = list_to_set (nodeUIDs os)
  /\ allTrue (filterCalls NewNodeProcessed os).2
  /\ countTrue (filterCalls NewNodeProcessed os).1
     = size (list_to_set (nodeUIDs os) : gset string).
Proof.
  assert (Hempty : allTrue NewNodeProcessed).
  { intros uid v Hl. unfold NewNodeProcessed in Hl. rewrite lookup_empty in Hl.
    discriminate. }
  destruct (filterCalls_allTrue os NewNodeProcessed Hempty) as [Hall [Hsize Hdom]].
  unfold NewNodeProcessed in *. rewrite dom_empty_L, (left_id_L ∅ (∪)) in Hdom.
  rewrite map_size_empty in Hsize. simpl in Hsize.
  split; [exact Hdom |]. split; [exact Hall |].
  rewrite <- Hdom, size_dom. symmetry. exact Hsize.
Qed.

Lemma processedIndex_Filter_keeps (p : gmap string bool) (o : object) (uid : string) :
  processedIndex p uid = true -> processedIndex (Filter p o).2 uid = true.
Proof.
  intros Hp. unfold Filter. destruct o as [n|]; simpl; [| exact Hp].
  destruct (processedIndex p (UID n)) eqn:E; simpl; [exact Hp |].
  apply processedIndex_true. apply processedIndex_true in Hp.
  rewrite lookup_insert_ne; [exact Hp |]. intros Heq. rewrite Heq in E.
  apply processedIndex_true in Hp. congruence.
Qed.

(** X8. Whatever map the calls start from, an identifier that is marked stays
    marked, and every call for a node that carries it answers false: marks
    are never removed. *)
Theorem Filter_never_unmarks (os : list object) :
  forall (p : gmap string bool) (uid : string),
    processedIndex p uid = true ->
    processedIndex (filterCalls p os).2 uid = true
    /\ forall i n, os !! i = Some (ONode n) -> UID n = uid ->
         (filterCalls p os).1 !! i = Some false.
Proof.
  induction os as [|o rest IH]; intros p uid Hp.
  - split; [exact Hp |]. intros i n Hi. rewrite lookup_nil in Hi. discriminate.
  - pose proof (processedIndex_Filter_keeps p o uid Hp) as Hp'.
    destruct (IH (Filter p o).2 uid Hp') as [Hfinal Hcalls].
    rewrite filterCalls_cons. split.
    + simpl. destruct (Filter p o) as [b p']. simpl in *.
      destruct (filterCalls p' rest) as [bs final]. exact Hfinal.
    + intros [|i] n Hi Huid; simpl in Hi.
      * injection Hi as ->. simpl. unfold Filter. simpl.
        rewrite Huid, Hp. reflexivity.
      * simpl. exact (Hcalls i n Hi Huid).
Qed.

Lemma Filter_never_unmarks_witness :
  processedIndex
    (filterCalls {[ "a" := true ]} [ONode (nodeWithUID "b"); ONode (nodeWithUID "a")]).2
    "a" = true
  /\ forall i n,
       [ONode (nodeWithUID "b"); ONode (nodeWithUID "a")] !! i = Some (ONode n) ->
       UID n = "a" ->
       (filterCalls {[ "a" := true ]}
          [ONode (nodeWithUID "b"); ONode (nodeWithUID "a")]).1 !! i = Some false.
Proof.
  apply (Filter_never_unmarks [ONode (nodeWithUID "b"); ONode (nodeWithUID "a")]
           {[ "a" := true ]} "a").
  reflexivity.
Defined.

(** ** More on the condition filter *)

Section ConditionFilterFacts.

Variable fracNanos : N -> N -> nat -> N.

Lemma NewNodeConditionFilter_nonempty (ct : list string) (clock : nat -> Z) (n : Node) :
  ct <> [] ->
  NewNodeConditionFilter fracNanos ct clock (ONode n)
  = match ParseConditions fracNanos ct with
    | Ok pc => Ok (suppliedLoop pc n clock 0).1
    | Panic msg => Panic msg
    end.
Proof.
  intros Hne. unfold NewNodeConditionFilter; simpl.
  destruct ct as [|c0 ct']; [congruence |]. reflexivity.
Qed.

(** X9. When the clock advances during the call, between [lo] and [hi]: an answer
    of true means that some matching condition was due before [hi], and a
    matching condition due before [lo] makes the answer true. *)
Theorem NewNodeConditionFilter_advancing_clock (ct : list string)
    (pc : list SuppliedCondition) (clock : nat -> Z) (lo hi : Z) (n : Node) :
  ParseConditions fracNanos ct = Ok pc ->
  ct <> [] ->
  (forall k, lo <= clock k <= hi) ->
  exists b, NewNodeConditionFilter fracNanos ct clock (ONode n) = Ok b
    /\ (b = true ->
        exists t c, t ∈ pc /\ c ∈ Conditions n /\ sameTypeStatus t c
          /\ cond_LastTransitionTime c + MinimumDuration t < hi)
    /\ ((exists t c, t ∈ pc /\ c ∈ Conditions n /\ sameTypeStatus t c
           /\ cond_LastTransitionTime c + MinimumDuration t < lo) ->
        b = true).
Proof.
  intros Hpc Hne Hclock. exists (suppliedLoop pc n clock 0).1.
  rewrite NewNodeConditionFilter_nonempty, Hpc by exact Hne.
  split; [reflexivity |]. exact (suppliedLoop_bounds pc n clock lo hi Hclock 0%nat).
Qed.

(** X10. A node that passes the filter passes it again in any later call: once a
    condition has lasted long enough it stays so, as long as the node's
    conditions are the same. *)
Theorem NewNodeConditionFilter_stays_true (ct : list string)
    (clock1 clock2 : nat -> Z) (lo mid hi : Z) (n : Node) :
  (forall k, lo <= clock1 k <= mid) ->
  (forall k, mid <= clock2 k <= hi) ->
  NewNodeConditionFilter fracNanos ct clock1 (ONode n) = Ok true ->
  NewNodeConditionFilter fracNanos ct clock2 (ONode n) = Ok true.
Proof.
  intros H1 H2 Hfirst. destruct ct as [|c0 ct']; [reflexivity |].
  rewrite NewNodeConditionFilter_nonempty in * by discriminate.
  destruct (ParseConditions fracNanos (c0 :: ct')) as [pc|msg]; [| discriminate].
  injection Hfirst as Hfirst. f_equal.
  apply (suppliedLoop_bounds pc n clock2 mid hi H2 0%nat).
  apply (suppliedLoop_bounds pc n clock1 lo mid H1 0%nat). exact Hfirst.
Qed.

(** X11. One entry with an equals sign and no comma after it is enough for the
    filter to panic on every node, whatever the other entries and the node's
    conditions; an object that is not a node is turned away before the list
    is parsed. *)
Theorem NewNodeConditionFilter_panics_on_every_node (ct : list string)
    (clock : nat -> Z) :
  Exists missingComma ct ->
  (forall n, NewNodeConditionFilter fracNanos ct clock (ONode n)
             = Panic "index out of range")
  /\ NewNodeConditionFilter fracNanos ct clock OOther = Ok false.
Proof.
  intros Hex. split; [| reflexivity]. intros n.
  assert (Hne : ct <> []) by (intros ->; inversion Hex).
  rewrite NewNodeConditionFilter_nonempty by exact Hne.
  unfold ParseConditions.
  assert (Hp : parseLoop fracNanos 0 ct (replicate (length ct) zeroSuppliedCondition)
               = Panic "index out of range")
    by (apply parseLoop_panic; auto).
  rewrite Hp. reflexivity.
Qed.

Lemma ParseConditions_lookup (conditions : list string)
    (pc : list SuppliedCondition) (j : nat) :
  ParseConditions fracNanos conditions = Ok pc ->
  pc !! j
  = match conditions !! j with
    | Some c =>
        match parseCondition fracNanos c with
        | Ok r => Some (entryOf r)
        | Panic _ => None
        end
    | None => None
    end.
Proof.
  unfold ParseConditions. intros Hp.
  assert (Hlen : length pc = length conditions)
    by (rewrite (parseLoop_length _ _ _ _ _ Hp); apply length_replicate).
  destruct (conditions !! j) as [c|] eqn:Hj.
  - destruct (parseLoop_pointwise fracNanos conditions 0 _ pc Hp) as [_ Hat].
    + rewrite length_replicate. lia.
    + intros k _ Hk. rewrite length_replicate in Hk.
      apply lookup_replicate_2. exact Hk.
    + destruct (Hat j c Hj) as [r [Hr Hpc]]. rewrite Hr. exact Hpc.
  - apply lookup_ge_None. apply lookup_ge_None in Hj. lia.
Qed.

Lemma ParseConditions_Ok_no_missingComma (conditions : list string)
    (pc : list SuppliedCondition) :
  ParseConditions fracNanos conditions = Ok pc -> ~ Exists missingComma conditions.
Proof.
  unfold ParseConditions. intros Hp Hex.
  assert (Habs : parseLoop fracNanos 0 conditions
                   (replicate (length conditions) zeroSuppliedCondition)
                 = Panic "index out of range")
    by (apply parseLoop_panic; auto).
  congruence.
Qed.

(** Parsing a concatenation is concatenating the parses. *)
Lemma ParseConditions_app (ct1 ct2 : list string) (pc1 pc2 : list SuppliedCondition) :
  ParseConditions fracNanos ct1 = Ok pc1 ->
  ParseConditions fracNanos ct2 = Ok pc2 ->
  ParseConditions fracNanos (ct1 ++ ct2)%list = Ok (pc1 ++ pc2)%list.
Proof.
  intros H1 H2.
  destruct (ParseConditions fracNanos (ct1 ++ ct2)%list) as [pc|msg] eqn:Hpc.
  - f_equal. apply list_eq. intros j.
    assert (Hl1 : length pc1 = length ct1).
    { unfold ParseConditions in H1.
      rewrite (parseLoop_length _ _ _ _ _ H1). apply length_replicate. }
    rewrite (ParseConditions_lookup _ _ j Hpc).
    destruct (decide (j < length ct1)%nat) as [Hlt|Hge].
    + rewrite !lookup_app_l by lia.
      symmetry. apply (ParseConditions_lookup ct1 pc1 j H1).
    + rewrite !lookup_app_r by lia. rewrite Hl1.
      symmetry. apply (ParseConditions_lookup ct2 pc2 _ H2).
  - exfalso. unfold ParseConditions in Hpc.
    apply parseLoop_panic in Hpc as [_ Hex].
    apply Exists_app in Hex as [Hex|Hex].
    + exact (ParseConditions_Ok_no_missingComma ct1 pc1 H1 Hex).
    + exact (ParseConditions_Ok_no_missingComma ct2 pc2 H2 Hex).
Qed.

(** X12. The filter over two lists put together is the disjunction of the filters
    over each: a node qualifies when it is in any of the listed states. *)
Theorem NewNodeConditionFilter_app (ct1 ct2 : list string) (clock : nat -> Z)
    (now : Z) (o : object) (b1 b2 : bool) :
  ct1 <> [] -> ct2 <> [] ->
  (forall k, clock k = now) ->
  NewNodeConditionFilter fracNanos ct1 clock o = Ok b1 ->
  NewNodeConditionFilter fracNanos ct2 clock o = Ok b2 ->
  NewNodeConditionFilter fracNanos (ct1 ++ ct2)%list clock o = Ok (b1 || b2).
Proof.
  intros Hne1 Hne2 Hclock Hf1 Hf2. destruct o as [n|].
  - assert (Hne : (ct1 ++ ct2)%list <> []).
    { intros Happ. apply app_eq_nil in Happ as [-> _]. congruence. }
    rewrite NewNodeConditionFilter_nonempty in * by assumption.
    destruct (ParseConditions fracNanos ct1) as [pc1|] eqn:H1; [| discriminate].
    destruct (ParseConditions fracNanos ct2) as [pc2|] eqn:H2; [| discriminate].
    rewrite (ParseConditions_app ct1 ct2 pc1 pc2 H1 H2).
    injection Hf1 as <-. injection Hf2 as <-. f_equal.
    assert (Hb : forall k, now <= clock k <= now) by (intros k; rewrite Hclock; lia).
    destruct (suppliedLoop_bounds pc1 n clock now now Hb 0%nat) as [A1 A2].
    destruct (suppliedLoop_bounds pc2 n clock now now Hb 0%nat) as [B1 B2].
    destruct (suppliedLoop_bounds (pc1 ++ pc2)%list n clock now now Hb 0%nat)
      as [C1 C2].
    apply eq_true_iff_eq. rewrite orb_true_iff. split.
    + intros Hfound. destruct (C1 Hfound) as [t [c [Ht Hrest]]].
      apply elem_of_app in Ht as [Ht|Ht]; [left; apply A2 | right; apply B2];
        exists t, c; auto.
    + intros [Hfound|Hfound]; apply C2.
      * destruct (A1 Hfound) as [t [c [Ht Hrest]]]. exists t, c.
        split; [apply elem_of_app; left; exact Ht | exact Hrest].
      * destruct (B1 Hfound) as [t [c [Ht Hrest]]]. exists t, c.
        split; [apply elem_of_app; right; exact Ht | exact Hrest].
  - destruct ct1; [congruence |]. destruct ct2; [congruence |].
    simpl in *. injection Hf1 as <-. injection Hf2 as <-. reflexivity.
Qed.

End ConditionFilterFacts.

(** ** More on the draining event handler *)

Section HandlerRuns.

Context {D : Type} {cd : CordonDrainer D}.

(** The whole effect of the armed function when the drain fails. *)
Lemma drainFunc_failure (f : timer) (now : Z) (w : World D) (err : string) (d' : D) :
  Drain (fn_n f) (drainer w) = (Some err, d') ->
  drainFunc f now w
  = {| handler := {| lastDrainScheduledFor := now; buffer := buffer (handler w) |};
       drainer := d';
       trace := trace w ++
         [ Log "debug" "Draining" [FString "node" (Name (fn_n f))];
           Event (fn_nr f) EventTypeWarning eventReasonDrainStarting (Text "Draining node");
           CallDrain (fn_n f);
           Log "info" "Failed to drain" [FString "node" (Name (fn_n f)); FError err];
           StatsRecord (<[TagResult := tagResultFailed]> (fn_tags f))
             MeasureNodesDrained 1;
           Event (fn_nr f) EventTypeWarning eventReasonDrainFailed
             (ErrorF "Draining failed: %v" err) ];
       timers := timers w |}.
Proof.
  intros Hd. step_through. rewrite Hd. simpl. rewrite <- !app_assoc. reflexivity.
Qed.

Lemma length_without (i : nat) (l : list timer) (f : timer) :
  l !! i = Some f ->
  S (length (take i l ++ drop (S i) l)) = length l.
Proof.
  intros Hi. apply lookup_lt_Some in Hi.
  rewrite length_app, length_take, length_drop. lia.
Qed.

(** X13. A drain that fails is reported and recorded, and that is all: the timer
    is spent, [Drain] was called once, nothing is armed for another attempt,
    and the schedule is reset to the clock reading all the same. *)
Theorem fire_drain_failure (i : nat) (now : Z) (w : World D) (f : timer)
    (err : string) (d' : D) :
  timers w !! i = Some f ->
  Drain (fn_n f) (drainer w) = (Some err, d') ->
  let w' := fire i now w in
  exists new : list effect,
    trace w' = (trace w ++ new)%list
    /\ eventReasons new = [eventReasonDrainStarting; eventReasonDrainFailed]
    /\ Event (fn_nr f) EventTypeWarning eventReasonDrainFailed
         (ErrorF "Draining failed: %v" err) ∈ new
    /\ measurements new
       = [ (MeasureNodesDrained, <[TagResult := tagResultFailed]> (fn_tags f), 1) ]
    /\ drainCalls new = [fn_n f]
    /\ armings new = []
    /\ S (length (timers w')) = length (timers w)
    /\ lastDrainScheduledFor (handler w') = now
    /\ buffer (handler w') = buffer (handler w).
Proof.
  intros Hf Hd w'. subst w'. unfold fire. rewrite Hf.
  rewrite (drainFunc_failure f now _ err d') by exact Hd. simpl.
  eexists. split; [reflexivity |]. split; [reflexivity |]. split.
  { do 5 right. left. }
  split; [reflexivity |]. split; [reflexivity |]. split; [reflexivity |].
  split; [exact (length_without i (timers w) f Hf) |]. split; reflexivity.
Qed.

Lemma handler_fire (i : nat) (now : Z) (w : World D) (f : timer) :
  timers w !! i = Some f ->
  handler (fire i now w)
  = {| lastDrainScheduledFor := now; buffer := buffer (handler w) |}.
Proof.
  intros Hf. unfold fire. rewrite Hf. step_through.
  destruct (Drain (fn_n f) (drainer w)) as [[err|] d']; reflexivity.
Qed.

(** X14. After a timer has fired at [fired], the next successful cordon is
    scheduled for [fired + buffer], wherever the schedule stood before: the
    drains still pending are forgotten. *)
Theorem cordon_after_fire_forgets_queue (i : nat) (fired now : Z) (n : Node)
    (w : World D) (f : timer) (d' : D) :
  timers w !! i = Some f ->
  Cordon n (drainer (fire i fired w)) = (None, d') ->
  GoTime.isDuration (fired - now) ->
  GoTime.isDuration (fired - now + buffer (handler w)) ->
  lastDrainScheduledFor (handler (cordonAndDrain n now (fire i fired w)))
  = fired + buffer (handler w).
Proof.
  intros Hf Hc Hd Hs.
  rewrite handler_cordonAndDrain, Hc, (handler_fire i fired w f Hf). cbn [fst].
  rewrite schedule_exact; simpl; [reflexivity | assumption | assumption].
Qed.

(** X15. The consequence for pacing: with two drains scheduled one buffer apart,
    when the first fires on time the next node to be cordoned is scheduled for
    the very instant of the drain still pending. *)
Theorem fire_reset_lets_drains_coincide (n1 n2 n3 : Node) (t1 t2 t3 : Z)
    (w : World D) (d1 d2 d3 : D) :
  timers w = [] ->
  Cordon n1 (drainer w) = (None, d1) ->
  Cordon n2 d1 = (None, d2) ->
  let w1 := cordonAndDrain n1 t1 w in
  let w2 := cordonAndDrain n2 t2 w1 in
  let due1 := lastDrainScheduledFor (handler w1) in
  let w3 := fire 0 due1 w2 in
  let w4 := cordonAndDrain n3 t3 w3 in
  Cordon n3 (drainer w3) = (None, d3) ->
  GoTime.isDuration (due1 - t2) ->
  GoTime.isDuration (due1 - t2 + buffer (handler w)) ->
  GoTime.isDuration (due1 - t3) ->
  GoTime.isDuration (due1 - t3 + buffer (handler w)) ->
  lastDrainScheduledFor (handler w4) = lastDrainScheduledFor (handler w2)
  /\ exists f2 f3, timers w4 = [f2; f3]
       /\ fn_n f2 = n2 /\ fn_n f3 = n3
       /\ t2 + delay f2 = t3 + delay f3.
Proof.
  intros Ht Hc1 Hc2 w1 w2 due1 w3 w4 Hc3 Hd2 Hs2 Hd3 Hs3.
  assert (Hw1 := cordonAndDrain_success n1 t1 w d1 Hc1). cbn zeta in Hw1. fold w1 in Hw1.
  assert (Hb1 : buffer (handler w1) = buffer (handler w)) by (rewrite Hw1; reflexivity).
  assert (Hdr1 : drainer w1 = d1) by (rewrite Hw1; reflexivity).
  assert (Hc2' : Cordon n2 (drainer w1) = (None, d2)) by (rewrite Hdr1; exact Hc2).
  assert (Hw2 := cordonAndDrain_success n2 t2 w1 d2 Hc2'). cbn zeta in Hw2. fold w2 in Hw2.
  assert (Hl2 : lastDrainScheduledFor (handler w2) = due1 + buffer (handler w)).
  { rewrite Hw2. simpl. rewrite <- Hb1. apply schedule_exact; rewrite ?Hb1; assumption. }
  assert (Ht2 : exists f1 f2, timers w2 = [f1; f2] /\ fn_n f2 = n2
                              /\ t2 + delay f2 = lastDrainScheduledFor (handler w2)).
  { rewrite Hw2. simpl. rewrite Hw1. simpl. rewrite Ht. simpl.
    eexists _, _. split; [reflexivity |]. split; reflexivity. }
  destruct Ht2 as [f1 [f2 [Ht2 [Hn2 Hdue2]]]].
  assert (Hf1 : timers w2 !! 0%nat = Some f1) by (rewrite Ht2; reflexivity).
  assert (Hb2 : buffer (handler w2) = buffer (handler w)) by (rewrite Hw2; simpl; exact Hb1).
  assert (Hh3 : handler w3 = {| lastDrainScheduledFor := due1;
                                buffer := buffer (handler w) |}).
  { unfold w3. rewrite (handler_fire 0 due1 w2 f1 Hf1), Hb2. reflexivity. }
  assert (Ht3 : timers w3 = [f2]).
  { unfold w3, fire. rewrite Hf1, Ht2. step_through.
    destruct (Drain (fn_n f1) (drainer w2)) as [[err|] d']; reflexivity. }
  assert (Hw4 := cordonAndDrain_success n3 t3 w3 d3 Hc3). cbn zeta in Hw4. fold w4 in Hw4.
  assert (Hl4 : lastDrainScheduledFor (handler w4) = due1 + buffer (handler w)).
  { rewrite Hw4. cbn [handler]. rewrite Hh3.
    rewrite schedule_exact; simpl; [reflexivity | assumption | assumption]. }
  split; [rewrite Hl4, Hl2; reflexivity |].
  eexists f2, _. split; [rewrite Hw4; cbn [timers]; rewrite Ht3; reflexivity |].
  split; [exact Hn2 |]. split; [reflexivity |].
  rewrite Hdue2, Hl2, <- Hl4, Hw4. reflexivity.
Qed.

(** X17. No run changes the buffer the handler was created with. *)
Theorem buffer_never_changes (w : World D) (ls : list label) :
  buffer (handler (run w ls)) = buffer (handler w).
Proof.
  revert w. unfold run. induction ls as [|l rest IH]; intros w; [reflexivity |].
  simpl. rewrite IH. apply buffer_step.
Qed.

Lemma step_balance (w : World D) (l : label) :
  (length (drainCalls (trace (step w l))) + length (timers (step w l))
   + length (armings (trace w)))%nat
  = (length (drainCalls (trace w)) + length (timers w)
     + length (armings (trace (step w l))))%nat.
Proof.
  destruct l as [n now|i now]; simpl.
  - destruct (Cordon n (drainer w)) as [[err|] d'] eqn:Hc.
    + rewrite (cordonAndDrain_failure n now w err d' Hc). simpl.
      unfold drainCalls, armings. rewrite !omap_app. simpl. rewrite !app_nil_r. lia.
    + rewrite (cordonAndDrain_success n now w d' Hc). simpl.
      unfold drainCalls, armings. rewrite !omap_app, !length_app. simpl. lia.
  - unfold fire. destruct (timers w !! i) as [f|] eqn:Hf; [| lia].
    pose proof (length_without i (timers w) f Hf) as Hlen.
    rewrite length_app in Hlen.
    destruct (Drain (fn_n f) (drainer w)) as [[err|] d'] eqn:Hd.
    + rewrite (drainFunc_failure f now _ err d') by exact Hd. simpl.
      unfold drainCalls, armings. rewrite !omap_app, !length_app. simpl. lia.
    + rewrite (drainFunc_success f now _ d') by exact Hd. simpl.
      unfold drainCalls, armings. rewrite !omap_app, !length_app. simpl. lia.
Qed.

(** X18. Every armed timer leads to at most one call of [Drain], and every call of
    [Drain] comes from a timer: after any run of a handler that started with
    nothing armed, the drains called and the timers still pending add up to
    the timers armed. *)
Theorem drains_and_pending_are_the_armed (h : DrainingResourceEventHandler)
    (d : D) (ls : list label) :
  let w := run (freshWorld h d) ls in
  (length (drainCalls (trace w)) + length (timers w))%nat
  = length (armings (trace w)).
Proof.
  intros w. subst w.
  assert (Hinv : forall (w0 : World D),
             (length (drainCalls (trace (run w0 ls))) + length (timers (run w0 ls))
              + length (armings (trace w0)))%nat
             = (length (drainCalls (trace w0)) + length (timers w0)
                + length (armings (trace (run w0 ls))))%nat).
  { unfold run. induction ls as [|l rest IH]; intros w0; [simpl; lia |].
    simpl. pose proof (IH (step w0 l)) as Hrest.
    pose proof (step_balance w0 l). lia. }
  specialize (Hinv (freshWorld h d)). simpl in Hinv. lia.
Qed.

End HandlerRuns.

Section HandlerShapes.

Context {D : Type} {cd : CordonDrainer D}.

Lemma cordonAndDrain_calls (n : Node) (now : Z) (w : World D) :
  cordonCalls (trace (cordonAndDrain n now w)) = (cordonCalls (trace w) ++ [n])%list
  /\ drainCalls (trace (cordonAndDrain n now w)) = drainCalls (trace w)
  /\ exists armed, timers (cordonAndDrain n now w) = (timers w ++ armed)%list.
Proof.
  destruct (Cordon n (drainer w)) as [[err|] d'] eqn:Hc.
  - rewrite (cordonAndDrain_failure n now w err d' Hc). simpl.
    unfold cordonCalls, drainCalls. rewrite !omap_app. simpl. rewrite app_nil_r.
    split; [reflexivity |]. split; [reflexivity |]. exists []. rewrite app_nil_r.
    reflexivity.
  - rewrite (cordonAndDrain_success n now w d' Hc). simpl.
    unfold cordonCalls, drainCalls. rewrite !omap_app. simpl. rewrite app_nil_r.
    split; [reflexivity |]. split; [reflexivity |]. eexists. reflexivity.
Qed.

(** X19. Handling notifications calls [Cordon] once for every added or updated
    object that is a node, on the new object of an update, in the order of
    arrival, and for nothing else: not for deletions, not for objects that are
    not nodes. It never calls [Drain] itself and removes no armed timer. *)
Theorem notifications_cordon_each_node (xs : list notification) :
  forall w : World D,
    cordonCalls (trace (deliver w xs))
    = (cordonCalls (trace w) ++ omap notifiedNode xs)%list
    /\ drainCalls (trace (deliver w xs)) = drainCalls (trace w)
    /\ exists armed, timers (deliver w xs) = (timers w ++ armed)%list.
Proof.
  unfold deliver. induction xs as [|x rest IH]; intros w.
  - simpl. rewrite app_nil_r. split; [reflexivity |]. split; [reflexivity |].
    exists []. rewrite app_nil_r. reflexivity.
  - simpl. destruct (IH (notify w x)) as [Hc [Hd [armed Ht]]].
    rewrite Hc, Hd, Ht. clear Hc Hd Ht IH.
    assert (Hx : cordonCalls (trace (notify w x))
                 = (cordonCalls (trace w)
                    ++ match notifiedNode x with Some n => [n] | None => [] end)%list
                 /\ drainCalls (trace (notify w x)) = drainCalls (trace w)
                 /\ exists armed', timers (notify w x) = (timers w ++ armed')%list).
    { assert (Hnone : cordonCalls (trace w) = (cordonCalls (trace w) ++ [])%list
                      /\ drainCalls (trace w) = drainCalls (trace w)
                      /\ exists armed', timers w = (timers w ++ armed')%list).
      { rewrite app_nil_r. split; [reflexivity |]. split; [reflexivity |].
        exists []. rewrite app_nil_r. reflexivity. }
      destruct x as [obj now|oldObj newObj now|obj]; simpl;
        unfold OnUpdate, OnAdd, OnDelete.
      - destruct (asNode obj) as [n|]; [apply cordonAndDrain_calls | exact Hnone].
      - destruct (asNode newObj) as [n|]; [apply cordonAndDrain_calls | exact Hnone].
      - exact Hnone. }
    destruct Hx as [Hc [Hd [armed' Ht]]]. rewrite Hc, Hd, Ht.
    split; [| split; [reflexivity |]].
    + rewrite <- app_assoc. f_equal. destruct (notifiedNode x); reflexivity.
    + exists (armed' ++ armed)%list. rewrite app_assoc. reflexivity.
Qed.

Lemma reason_known (reason : string) :
  In reason eventReasonsKnown -> reason ∈ eventReasonsKnown.
Proof. intros Hin. apply list_elem_of_In. exact Hin. Qed.

(** Every step keeps the shape of what has been emitted and of what the
    armed timers hold. *)
Lemma step_shaped (w : World D) (l : label) :
  Forall effectShaped (trace w) -> Forall timerShaped (timers w) ->
  Forall effectShaped (trace (step w l)) /\ Forall timerShaped (timers (step w l)).
Proof.
  intros Htr Htm. destruct l as [n now|i now]; simpl.
  - destruct (Cordon n (drainer w)) as [[err|] d'] eqn:Hc.
    + rewrite (cordonAndDrain_failure n now w err d' Hc). simpl.
      split; [| exact Htm]. apply Forall_app. split; [exact Htr |].
      repeat constructor; simpl; try (apply reason_known; simpl; tauto).
      eexists _, _. split; [reflexivity | right; reflexivity].
    + rewrite (cordonAndDrain_success n now w d' Hc). simpl. split.
      * apply Forall_app. split; [exact Htr |].
        repeat constructor; simpl; try (apply reason_known; simpl; tauto).
        eexists _, _. split; [reflexivity | left; reflexivity].
      * apply Forall_app. split; [exact Htm |]. repeat constructor.
  - unfold fire. destruct (timers w !! i) as [f|] eqn:Hf; [| split; assumption].
    assert (Hfs : timerShaped f).
    { apply (Forall_lookup_1 _ _ _ _ Htm Hf). }
    destruct Hfs as [Hnr Htags].
    assert (Htm' : Forall timerShaped (take i (timers w) ++ drop (S i) (timers w))).
    { apply Forall_app. split; [apply Forall_take | apply Forall_drop]; exact Htm. }
    destruct (Drain (fn_n f) (drainer w)) as [[err|] d'] eqn:Hd.
    + rewrite (drainFunc_failure f now _ err d') by exact Hd. simpl.
      split; [| exact Htm']. apply Forall_app. split; [exact Htr |].
      rewrite Hnr, Htags, insert_insert_eq.
      repeat constructor; simpl; try (apply reason_known; simpl; tauto).
      eexists _, _. split; [reflexivity | right; reflexivity].
    + rewrite (drainFunc_success f now _ d') by exact Hd. simpl.
      split; [| exact Htm']. apply Forall_app. split; [exact Htr |].
      rewrite Hnr, Htags, insert_insert_eq.
      repeat constructor; simpl; try (apply reason_known; simpl; tauto).
      eexists _, _. split; [reflexivity | left; reflexivity].
Qed.

Lemma run_shaped (ls : list label) :
  forall w : World D,
    Forall effectShaped (trace w) -> Forall timerShaped (timers w) ->
    Forall effectShaped (trace (run w ls)).
Proof.
  unfold run. induction ls as [|l rest IH]; intros w Htr Htm; [exact Htr |].
  simpl. destruct (step_shaped w l Htr Htm) as [Htr' Htm']. apply IH; assumption.
Qed.

Lemma eventAbout_more (handled more : list Node) (e : effect) :
  eventAbout handled e -> eventAbout (handled ++ more) e.
Proof.
  destruct e; simpl; auto. intros [[n [Hn Hnr]] Hrest]. split; [| exact Hrest].
  exists n. split; [apply elem_of_app; left; exact Hn | exact Hnr].
Qed.

Lemma timerAbout_more (handled more : list Node) (f : timer) :
  timerAbout handled f -> timerAbout (handled ++ more) f.
Proof.
  intros [Hnr Hn]. split; [exact Hnr | apply elem_of_app; left; exact Hn].
Qed.

Lemma cordonCalls_app (tr new : list effect) :
  cordonCalls (tr ++ new) = (cordonCalls tr ++ cordonCalls new)%list.
Proof. unfold cordonCalls. apply omap_app. Qed.

(** Split a goal about every effect of an explicit list into one goal per
    recorded event. *)
Ltac each_event :=
  repeat match goal with
         | |- Forall _ (_ :: _) => apply List.Forall_cons
         | |- Forall _ [] => apply List.Forall_nil
         end;
  try exact I.

(** Every step keeps events and armed timers tied to nodes that [Cordon] was
    called for. *)
Lemma step_about (w : World D) (l : label) :
  Forall (eventAbout (cordonCalls (trace w))) (trace w) ->
  Forall (timerAbout (cordonCalls (trace w))) (timers w) ->
  Forall (eventAbout (cordonCalls (trace (step w l)))) (trace (step w l))
  /\ Forall (timerAbout (cordonCalls (trace (step w l)))) (timers (step w l)).
Proof.
  intros Htr Htm.
  assert (Hgrow : forall new : list effect,
             Forall (eventAbout (cordonCalls (trace w ++ new))) (trace w)
             /\ Forall (timerAbout (cordonCalls (trace w ++ new))) (timers w)).
  { intros new. rewrite cordonCalls_app. split.
    - eapply Forall_impl; [exact Htr |]. intros e. apply eventAbout_more.
    - eapply Forall_impl; [exact Htm |]. intros f. apply timerAbout_more. }
  destruct l as [n now|i now]; simpl.
  - destruct (Cordon n (drainer w)) as [[err|] d'] eqn:Hc.
    + rewrite (cordonAndDrain_failure n now w err d' Hc). cbn zeta. simpl trace.
      simpl timers.
      match goal with |- context [(trace w ++ ?new)%list] =>
        destruct (Hgrow new) as [Htr' Htm'];
        assert (Hin : n ∈ cordonCalls (trace w ++ new))
          by (rewrite cordonCalls_app; apply elem_of_app; right; left)
      end.
      split; [| exact Htm']. apply Forall_app. split; [exact Htr' |].
      each_event.
      * split; [exists n; split; [exact Hin | reflexivity] |].
        split; [reflexivity | apply reason_known; simpl; tauto].
      * split; [exists n; split; [exact Hin | reflexivity] |].
        split; [reflexivity | apply reason_known; simpl; tauto].
    + rewrite (cordonAndDrain_success n now w d' Hc). cbn zeta. simpl trace.
      simpl timers.
      match goal with |- context [(trace w ++ ?new)%list] =>
        destruct (Hgrow new) as [Htr' Htm'];
        assert (Hin : n ∈ cordonCalls (trace w ++ new))
          by (rewrite cordonCalls_app; apply elem_of_app; right; left)
      end.
      split.
      * apply Forall_app. split; [exact Htr' |].
        each_event.
        -- split; [exists n; split; [exact Hin | reflexivity] |].
           split; [reflexivity | apply reason_known; simpl; tauto].
        -- split; [exists n; split; [exact Hin | reflexivity] |].
           split; [reflexivity | apply reason_known; simpl; tauto].
        -- split; [exists n; split; [exact Hin | reflexivity] |].
           split; [reflexivity | apply reason_known; simpl; tauto].
      * apply Forall_app. split; [exact Htm' |].
        apply List.Forall_cons; [| apply List.Forall_nil].
        split; [reflexivity | exact Hin].
  - unfold fire. destruct (timers w !! i) as [f|] eqn:Hf; [| split; assumption].
    destruct (Forall_lookup_1 _ _ _ _ Htm Hf) as [Hnr Hhandled].
    assert (Hsub : forall handled,
               Forall (timerAbout handled) (timers w) ->
               Forall (timerAbout handled) (take i (timers w) ++ drop (S i) (timers w))).
    { intros handled Hall. apply Forall_app.
      split; [apply Forall_take | apply Forall_drop]; exact Hall. }
    assert (Hf' : forall new : list effect,
               fn_n f ∈ cordonCalls (trace w ++ new)).
    { intros new. rewrite cordonCalls_app. apply elem_of_app. left. exact Hhandled. }
    destruct (Drain (fn_n f) (drainer w)) as [[err|] d'] eqn:Hd.
    + rewrite (drainFunc_failure f now _ err d') by exact Hd. simpl trace. simpl timers.
      match goal with |- context [(trace w ++ ?new)%list] =>
        destruct (Hgrow new) as [Htr' Htm']; pose proof (Hf' new) as Hin end.
      split; [| apply Hsub; exact Htm']. apply Forall_app. split; [exact Htr' |].
      each_event.
      * split; [exists (fn_n f); split; [exact Hin | exact Hnr] |].
        split; [reflexivity | apply reason_known; simpl; tauto].
      * split; [exists (fn_n f); split; [exact Hin | exact Hnr] |].
        split; [reflexivity | apply reason_known; simpl; tauto].
    + rewrite (drainFunc_success f now _ d') by exact Hd. simpl trace. simpl timers.
      match goal with |- context [(trace w ++ ?new)%list] =>
        destruct (Hgrow new) as [Htr' Htm']; pose proof (Hf' new) as Hin end.
      split; [| apply Hsub; exact Htm']. apply Forall_app. split; [exact Htr' |].
      each_event.
      * split; [exists (fn_n f); split; [exact Hin | exact Hnr] |].
        split; [reflexivity | apply reason_known; simpl; tauto].
      * split; [exists (fn_n f); split; [exact Hin | exact Hnr] |].
        split; [reflexivity | apply reason_known; simpl; tauto].
Qed.

Lemma run_about (ls : list label) :
  forall w : World D,
    Forall (eventAbout (cordonCalls (trace w))) (trace w) ->
    Forall (timerAbout (cordonCalls (trace w))) (timers w) ->
    Forall (eventAbout (cordonCalls (trace (run w ls)))) (trace (run w ls)).
Proof.
  unfold run. induction ls as [|l rest IH]; intros w Htr Htm; [exact Htr |].
  simpl. destruct (step_about w l Htr Htm) as [Htr' Htm']. apply IH; assumption.
Qed.

(** X20. Every event a handler records, in any run, is a warning with one of
    the seven reasons about a node that [Cordon] was called for in that run:
    its object reference has kind Node and carries that node's name both as
    name and as UID, not the node's own UID. *)
Theorem recorded_events_shaped (h : DrainingResourceEventHandler) (d : D)
    (ls : list label) (nr : ObjectReference) (eventtype reason : string)
    (msg : message) :
  Event nr eventtype reason msg ∈ trace (run (freshWorld h d) ls) ->
  (exists n : Node,
      n ∈ cordonCalls (trace (run (freshWorld h d) ls))
      /\ ref_Kind nr = "Node" /\ ref_Name nr = Name n /\ ref_UID nr = Name n)
  /\ eventtype = EventTypeWarning /\ reason ∈ eventReasonsKnown.
Proof.
  intros Hin.
  assert (Hall : Forall (eventAbout (cordonCalls (trace (run (freshWorld h d) ls))))
                   (trace (run (freshWorld h d) ls)))
    by (apply run_about; constructor).
  rewrite Forall_forall in Hall. destruct (Hall _ Hin) as [[n [Hn ->]] Hrest].
  split; [| exact Hrest]. exists n. split; [exact Hn |].
  split; [reflexivity |]. split; reflexivity.
Qed.

(** X21. Every measurement a handler records, in any run, has the value 1 and
    exactly two tags: the node's name and a result that is succeeded or
    failed. *)
Theorem recorded_measurements_shaped (h : DrainingResourceEventHandler) (d : D)
    (ls : list label) (tags : gmap string string) (m : Measure) (v : Z) :
  StatsRecord tags m v ∈ trace (run (freshWorld h d) ls) ->
  v = 1
  /\ exists name result : string,
       tags = <[TagResult := result]> (<[TagNodeName := name]> ∅)
       /\ (result = tagResultSucceeded \/ result = tagResultFailed).
Proof.
  intros Hin.
  assert (Hall : Forall effectShaped (trace (run (freshWorld h d) ls)))
    by (apply run_shaped; constructor).
  rewrite Forall_forall in Hall. exact (Hall _ Hin).
Qed.

End HandlerShapes.

(** ** The constructor and its options *)

Lemma fold_loggers (ho : list DrainingResourceEventHandlerOption)
    (h : DrainingResourceEventHandler) :
  Forall (fun o => o = WithLogger) ho -> fold_left (fun h o => o h) ho h = h.
Proof.
  revert h. induction ho as [|o rest IH]; intros h Hall; [reflexivity |].
  inversion Hall as [|? ? Ho Hrest]; subst. simpl. apply IH. exact Hrest.
Qed.

(** X22. A handler made with the exported options is scheduled from the instant
    of its creation; its buffer is the default one when no option sets it,
    and the one of the last [WithDrainBuffer] otherwise. *)
Theorem NewDrainingResourceEventHandler_options (now : Z)
    (ho : list DrainingResourceEventHandlerOption) :
  Forall exportedOption ho ->
  lastDrainScheduledFor (NewDrainingResourceEventHandler now ho) = now
  /\ (Forall (fun o => o = WithLogger) ho ->
      buffer (NewDrainingResourceEventHandler now ho) = DefaultDrainBuffer)
  /\ (forall ho1 d ho2,
        ho = (ho1 ++ WithDrainBuffer d :: ho2)%list ->
        Forall (fun o => o = WithLogger) ho2 ->
        buffer (NewDrainingResourceEventHandler now ho) = d).
Proof.
  intros Hexp. unfold NewDrainingResourceEventHandler.
  assert (Hgen : forall h, lastDrainScheduledFor (fold_left (fun h o => o h) ho h)
                           = lastDrainScheduledFor h).
  { induction Hexp as [|o rest Ho Hrest IH]; intros h; [reflexivity |].
    simpl. rewrite IH. destruct Ho as [->|[d ->]]; reflexivity. }
  split; [rewrite Hgen; reflexivity |]. split.
  - intros Hl. rewrite fold_loggers by exact Hl. reflexivity.
  - intros ho1 d ho2 -> Hl. rewrite fold_left_app. simpl.
    rewrite fold_loggers by exact Hl. reflexivity.
Qed.

Lemma NewDrainingResourceEventHandler_options_witness :
  lastDrainScheduledFor
    (NewDrainingResourceEventHandler 7 [WithLogger; WithDrainBuffer GoTime.Second]) = 7.
Proof.
  refine (proj1 (NewDrainingResourceEventHandler_options 7
                   [WithLogger; WithDrainBuffer GoTime.Second] _)).
  constructor; [left; reflexivity |].
  constructor; [right; eexists; reflexivity | constructor].
Defined.

(** ** The further properties on concrete inputs *)

Lemma ParseConditions_length_witness :
  length [readyFalse5m; {| Type_ := "Ready"; Status := "True"; MinimumDuration := 0 |}]
  = length ["Ready=False,5m"; "Ready"].
Proof.
  apply (ParseConditions_length GoTime.exactFraction). reflexivity.
Defined.

Lemma ParseConditions_shorthand_witness :
  [readyFalse5m; {| Type_ := "OutOfDisk"; Status := "True"; MinimumDuration := 0 |}]
    !! 1%nat
  = Some {| Type_ := "OutOfDisk"; Status := "True"; MinimumDuration := 0 |}.
Proof.
  apply (ParseConditions_shorthand GoTime.exactFraction
           ["Ready=False,5m"; "OutOfDisk"]).
  - reflexivity.
  - reflexivity.
  - unfold hasByte. simpl. intros Hin.
    repeat (destruct Hin as [Hin|Hin]; [discriminate Hin |]). exact Hin.
Defined.

Lemma ParseConditions_full_form_witness :
  [readyFalse5m] !! 0%nat = Some readyFalse5m.
Proof.
  refine (ParseConditions_full_form GoTime.exactFraction ["Ready=False,5m"]
            [readyFalse5m] 0 "Ready" "False" "5m" eq_refl eq_refl _ _).
  - unfold hasByte. simpl. intros Hin.
    repeat (destruct Hin as [Hin|Hin]; [discriminate Hin |]). exact Hin.
  - unfold hasByte. simpl. intros Hin.
    repeat (destruct Hin as [Hin|Hin]; [discriminate Hin |]). exact Hin.
Defined.

Lemma NewNodeConditionFilter_advancing_clock_witness :
  exists b,
    NewNodeConditionFilter GoTime.exactFraction ["Ready=False,5m"]
      (twoReadings (5 * GoTime.Minute + 1) (5 * GoTime.Minute + 2))
      (ONode notReadyNode) = Ok b
    /\ (b = true ->
        exists t c, t ∈ [readyFalse5m] /\ c ∈ Conditions notReadyNode
          /\ sameTypeStatus t c
          /\ cond_LastTransitionTime c + MinimumDuration t < 5 * GoTime.Minute + 2)
    /\ ((exists t c, t ∈ [readyFalse5m] /\ c ∈ Conditions notReadyNode
           /\ sameTypeStatus t c
           /\ cond_LastTransitionTime c + MinimumDuration t < 5 * GoTime.Minute + 1) ->
        b = true).
Proof.
  apply (NewNodeConditionFilter_advancing_clock GoTime.exactFraction).
  - reflexivity.
  - discriminate.
  - intros [|k]; vm_compute; split; discriminate.
Defined.

Lemma NewNodeConditionFilter_stays_true_witness :
  NewNodeConditionFilter GoTime.exactFraction ["Ready=False,5m"]
    (constantClock (6 * GoTime.Minute)) (ONode notReadyNode) = Ok true.
Proof.
  apply (NewNodeConditionFilter_stays_true GoTime.exactFraction ["Ready=False,5m"]
           (constantClock (5 * GoTime.Minute + 1)) (constantClock (6 * GoTime.Minute))
           (5 * GoTime.Minute + 1) (5 * GoTime.Minute + 1) (6 * GoTime.Minute)).
  - intros k. vm_compute. split; discriminate.
  - intros k. vm_compute. split; discriminate.
  - reflexivity.
Defined.

Lemma NewNodeConditionFilter_panics_on_every_node_witness :
  (forall n, NewNodeConditionFilter GoTime.exactFraction ["Ready"; "Ready=bad"]
               (constantClock 0) (ONode n) = Panic "index out of range")
  /\ NewNodeConditionFilter GoTime.exactFraction ["Ready"; "Ready=bad"]
       (constantClock 0) OOther = Ok false.
Proof.
  apply NewNodeConditionFilter_panics_on_every_node.
  right. left. exists "Ready", "bad". split; [reflexivity |].
  split; unfold hasByte; simpl; intros Hin;
    repeat (destruct Hin as [Hin|Hin]; [discriminate Hin |]); exact Hin.
Defined.

Lemma NewNodeConditionFilter_app_witness :
  NewNodeConditionFilter GoTime.exactFraction (["Ready"] ++ ["Ready=False,5m"])%list
    (constantClock (5 * GoTime.Minute + 1)) (ONode notReadyNode)
  = Ok (false || true).
Proof.
  apply (NewNodeConditionFilter_app GoTime.exactFraction ["Ready"] ["Ready=False,5m"]
           (constantClock (5 * GoTime.Minute + 1)) (5 * GoTime.Minute + 1)).
  - discriminate.
  - discriminate.
  - reflexivity.
  - reflexivity.
  - reflexivity.
Defined.

Lemma fire_drain_failure_witness :
  let w := cordonAndDrain (cd := drainFails) exampleNode 5 defaultWorld in
  let w' := fire (cd := drainFails) 0 (10 * GoTime.Minute) w in
  exists new : list effect,
    trace w' = (trace w ++ new)%list
    /\ eventReasons new = [eventReasonDrainStarting; eventReasonDrainFailed]
    /\ Event {| ref_Kind := "Node"; ref_Name := "n1"; ref_UID := "n1" |}
         EventTypeWarning eventReasonDrainFailed
         (ErrorF "Draining failed: %v" "boom") ∈ new
    /\ measurements new
       = [ (MeasureNodesDrained,
            <[TagResult := tagResultFailed]>
              (<[TagResult := tagResultSucceeded]> (<[TagNodeName := "n1"]> ∅)), 1) ]
    /\ drainCalls new = [exampleNode]
    /\ armings new = []
    /\ S (length (timers w')) = length (timers w)
    /\ lastDrainScheduledFor (handler w') = 10 * GoTime.Minute
    /\ buffer (handler w') = buffer (handler w).
Proof.
  exact (fire_drain_failure (cd := drainFails) 0 (10 * GoTime.Minute)
           (cordonAndDrain (cd := drainFails) exampleNode 5 defaultWorld)
           _ "boom" tt eq_refl eq_refl).
Defined.

Lemma cordon_after_fire_forgets_queue_witness :
  let w := cordonAndDrain exampleNode 0 (cordonAndDrain exampleNode 0 defaultWorld) in
  lastDrainScheduledFor (handler w) = 20 * GoTime.Minute
  /\ lastDrainScheduledFor
       (handler (cordonAndDrain exampleNode (11 * GoTime.Minute)
                   (fire 0 (10 * GoTime.Minute) w)))
     = 10 * GoTime.Minute + buffer (handler w).
Proof.
  split; [reflexivity |].
  refine (cordon_after_fire_forgets_queue 0 (10 * GoTime.Minute) (11 * GoTime.Minute)
            exampleNode
            (cordonAndDrain exampleNode 0 (cordonAndDrain exampleNode 0 defaultWorld))
            _ tt eq_refl eq_refl _ _).
  - vm_compute. split; discriminate.
  - vm_compute. split; discriminate.
Defined.

Lemma fire_reset_lets_drains_coincide_witness :
  let w1 := cordonAndDrain exampleNode 0 defaultWorld in
  let w2 := cordonAndDrain (nodeWithUID "n2") 1 w1 in
  let w3 := fire 0 (lastDrainScheduledFor (handler w1)) w2 in
  let w4 := cordonAndDrain (nodeWithUID "n3") (11 * GoTime.Minute) w3 in
  lastDrainScheduledFor (handler w4) = lastDrainScheduledFor (handler w2)
  /\ exists f2 f3, timers w4 = [f2; f3]
       /\ fn_n f2 = nodeWithUID "n2" /\ fn_n f3 = nodeWithUID "n3"
       /\ 1 + delay f2 = 11 * GoTime.Minute + delay f3.
Proof.
  refine (fire_reset_lets_drains_coincide exampleNode (nodeWithUID "n2")
            (nodeWithUID "n3") 0 1 (11 * GoTime.Minute) defaultWorld tt tt tt
            eq_refl eq_refl eq_refl eq_refl _ _ _ _);
    vm_compute; split; discriminate.
Defined.

Lemma recorded_events_shaped_witness :
  (exists n : Node,
      n ∈ cordonCalls
            (trace (run (freshWorld (NewDrainingResourceEventHandler 0 []) tt)
                      [LCordon exampleNode 5]))
      /\ ref_Kind (nodeReference exampleNode) = "Node"
      /\ ref_Name (nodeReference exampleNode) = Name n
      /\ ref_UID (nodeReference exampleNode) = Name n)
  /\ EventTypeWarning = EventTypeWarning
  /\ eventReasonCordonStarting ∈ eventReasonsKnown.
Proof.
  apply (recorded_events_shaped (NewDrainingResourceEventHandler 0 []) tt
           [LCordon exampleNode 5] _ _ _ (Text "Cordoning node")).
  vm_compute. right. left.
Defined.

Lemma recorded_measurements_shaped_witness :
  1 = 1
  /\ exists name result : string,
       <[TagResult := tagResultSucceeded]> (<[TagNodeName := "n1"]> ∅)
       = (<[TagResult := result]> (<[TagNodeName := name]> ∅) : gmap string string)
       /\ (result = tagResultSucceeded \/ result = tagResultFailed).
Proof.
  apply (recorded_measurements_shaped (NewDrainingResourceEventHandler 0 []) tt
           [LCordon exampleNode 5] _ MeasureNodesCordoned).
  vm_compute. do 4 right. left.
Defined.

Lemma failed_cordon_never_drained_witness :
  let w := run (cd := alwaysFails) (freshWorld (NewDrainingResourceEventHandler 0 []) tt)
             [LCordon exampleNode 5; LFire 0 6] in
  (exampleNode ∉ map fn_n (timers w)) /\ (exampleNode ∉ drainCalls (trace w)).
Proof.
  apply (failed_cordon_never_drained (cd := alwaysFails) exampleNode
           [LCordon exampleNode 5; LFire 0 6]).
  - intros d. discriminate.
  - intros Hin. inversion Hin.
  - intros Hin. inversion Hin.
Defined.

(** X16. After an idle period longer than the buffer, the drain of the next node
    that is cordoned is not delayed at all: the instant computed lies in the
    past and the timer is armed with a negative delay, which fires at once. *)
Theorem cordon_after_idle_is_due_at_once {D : Type} {cd : CordonDrainer D}
    (n : Node) (now : Z) (w : World D) (d' : D) :
  Cordon n (drainer w) = (None, d') ->
  GoTime.isDuration (lastDrainScheduledFor (handler w) - now) ->
  GoTime.isDuration (lastDrainScheduledFor (handler w) - now + buffer (handler w)) ->
  lastDrainScheduledFor (handler w) + buffer (handler w) < now ->
  lastDrainScheduledFor (handler (cordonAndDrain n now w)) < now
  /\ exists f, timers (cordonAndDrain n now w) = (timers w ++ [f])%list
       /\ fn_n f = n
       /\ delay f = lastDrainScheduledFor (handler w) + buffer (handler w) - now
       /\ delay f < 0.
Proof.
  intros Hc Hdiff Hsum Hidle.
  rewrite (cordonAndDrain_success n now w d' Hc). cbn zeta. simpl handler. simpl timers.
  assert (Hd : GoTime.addDuration
                 (GoTime.Sub (lastDrainScheduledFor (handler w)) now) (buffer (handler w))
               = lastDrainScheduledFor (handler w) + buffer (handler w) - now).
  { unfold GoTime.addDuration.
    rewrite Sub_exact, int64_id by assumption. lia. }
  split.
  - unfold schedule, GoTime.Add. simpl. rewrite Hd. lia.
  - eexists. split; [reflexivity |]. split; [reflexivity |]. simpl.
    rewrite Hd. split; [reflexivity | lia].
Qed.

Lemma cordon_after_idle_is_due_at_once_witness :
  lastDrainScheduledFor (handler (cordonAndDrain exampleNode GoTime.Hour defaultWorld))
  < GoTime.Hour.
Proof.
  refine (proj1 (cordon_after_idle_is_due_at_once exampleNode GoTime.Hour
                   defaultWorld tt eq_refl _ _ _)).
  - vm_compute. split; discriminate.
  - vm_compute. split; discriminate.
  - vm_compute. reflexivity.
Defined.

(** ** The distance between consecutive schedules *)

Lemma int64_wrap_high (z : Z) :
  GoTime.maxDuration < z < 2 ^ 63 + 2 ^ 64 -> GoTime.int64 z = z - 2 ^ 64.
Proof.
  unfold GoTime.maxDuration, GoTime.int64. intros Hz.
  replace (z + 2 ^ 63) with ((z - 2 ^ 63) + 1 * 2 ^ 64) by lia.
  rewrite Z_mod_plus_full, Z.mod_small; lia.
Qed.

(** One schedule step moves the schedule by at least the buffer, forwards or,
    when the delay wraps around, backwards. *)
Lemma schedule_distance (now : Z) (h : DrainingResourceEventHandler) :
  0 <= buffer h <= GoTime.maxDuration ->
  buffer h
  <= Z.abs (lastDrainScheduledFor (schedule now h) - lastDrainScheduledFor h).
Proof.
  intros Hb. unfold schedule, GoTime.Add, GoTime.addDuration. simpl.
  pose proof (Sub_isDuration (lastDrainScheduledFor h) now) as Hs.
  assert (Hcases :
            (lastDrainScheduledFor h - now < GoTime.minDuration
             /\ GoTime.Sub (lastDrainScheduledFor h) now = GoTime.minDuration)
            \/ (GoTime.maxDuration < lastDrainScheduledFor h - now
                /\ GoTime.Sub (lastDrainScheduledFor h) now = GoTime.maxDuration)
            \/ GoTime.Sub (lastDrainScheduledFor h) now
               = lastDrainScheduledFor h - now).
  { unfold GoTime.Sub.
    destruct (Z.ltb_spec (lastDrainScheduledFor h - now) GoTime.minDuration);
      [left; auto |].
    destruct (Z.ltb_spec GoTime.maxDuration (lastDrainScheduledFor h - now));
      [right; left; auto | right; right; reflexivity]. }
  destruct (Z.le_gt_cases
              (GoTime.Sub (lastDrainScheduledFor h) now + buffer h)
              GoTime.maxDuration) as [Hfit|Hwrap].
  - rewrite int64_id
      by (unfold GoTime.isDuration, GoTime.minDuration, GoTime.maxDuration in *; lia).
    unfold GoTime.isDuration, GoTime.minDuration, GoTime.maxDuration in *. lia.
  - rewrite int64_wrap_high
      by (unfold GoTime.isDuration, GoTime.minDuration, GoTime.maxDuration in *; lia).
    unfold GoTime.isDuration, GoTime.minDuration, GoTime.maxDuration in *. lia.
Qed.

(** C5. With a buffer of ten minutes, the drain times computed by two
    successful cordons in a row, no timer firing in between, are at least ten
    minutes apart from each other, whatever the state of the handler and the
    two clock readings. *)
Theorem consecutive_schedules_at_least_ten_minutes_from_each_other
    {D : Type} {cd : CordonDrainer D} (n1 n2 : Node) (now1 now2 : Z)
    (w : World D) (d1 d2 : D) :
  buffer (handler w) = 10 * GoTime.Minute ->
  Cordon n1 (drainer w) = (None, d1) ->
  Cordon n2 d1 = (None, d2) ->
  let w1 := cordonAndDrain n1 now1 w in
  let w2 := cordonAndDrain n2 now2 w1 in
  10 * GoTime.Minute
  <= Z.abs (lastDrainScheduledFor (handler w2) - lastDrainScheduledFor (handler w1)).
Proof.
  intros Hbuf Hc1 Hc2 w1 w2.
  assert (Hb1 : buffer (handler w1) = 10 * GoTime.Minute).
  { subst w1. rewrite <- Hbuf. apply (buffer_step w (LCordon n1 now1)). }
  assert (Hd1 : drainer w1 = d1).
  { subst w1. rewrite (cordonAndDrain_success n1 now1 w d1 Hc1). reflexivity. }
  assert (Hh2 : handler w2 = schedule now2 (handler w1)).
  { subst w2. rewrite handler_cordonAndDrain, Hd1, Hc2. reflexivity. }
  rewrite Hh2, <- Hb1. apply schedule_distance.
  rewrite Hb1. vm_compute. split; discriminate.
Qed.

Lemma consecutive_schedules_at_least_ten_minutes_from_each_other_witness :
  10 * GoTime.Minute
  <= Z.abs
       (lastDrainScheduledFor
          (handler (cordonAndDrain exampleNode GoTime.Second
                      (cordonAndDrain exampleNode 0 defaultWorld)))
        - lastDrainScheduledFor (handler (cordonAndDrain exampleNode 0 defaultWorld))).
Proof.
  exact (consecutive_schedules_at_least_ten_minutes_from_each_other
           exampleNode exampleNode 0 GoTime.Second defaultWorld tt tt
           eq_refl eq_refl eq_refl).
Defined.
